(* ===================================================================== *)
(* equadratures/poly.py : the Poly class, embedded and verified.          *)
(*                                                                        *)
(* Numbers: numpy's float64 entries are idealised as the elements of an   *)
(* ordered field R (exact arithmetic); rounding is outside this model.    *)
(* Arrays: a 1-D array is a seq, a 2-D array is a seq of rows, and the    *)
(* shape of a 2-D array is read from the row list (row count) and from    *)
(* its first row (column count).                                          *)
(* Errors: a Python exception is a value of [exn]; every method that can  *)
(* raise lives in the error monad [res].                                  *)
(* Objects: Parameter lists, Basis objects and Poly objects live in a     *)
(* heap and are held by reference, as Python holds them.                  *)
(* ===================================================================== *)

Set Warnings "-notation-overridden,-ambiguous-paths,-notation-incompatible-prefix,-abstract-large-number,-rewrite-rw,-notation-for-abbreviation".
From HB Require Import structures.
From Stdlib Require Import String Ascii.
From mathcomp Require Import boot order algebra.

Set Implicit Arguments.
Unset Strict Implicit.
Unset Printing Implicit Defensive.

Import GRing.Theory Num.Theory.

(* --------------------------------------------------------------------- *)
(* Python exceptions and the error monad                                  *)
(* --------------------------------------------------------------------- *)

Inductive exn : Type := IndexError | ValueError | TypeError | AttributeError.

Inductive res (A : Type) : Type :=
| Ok (a : A)
| Err (e : exn).

Arguments Ok {A} a.
Arguments Err {A} e.

Definition bind {A B : Type} (c : res A) (k : A -> res B) : res B :=
  match c with
  | Ok a => k a
  | Err e => Err e
  end.

Notation "x <- c ;; k" := (bind c (fun x => k))
  (at level 100, c at next level, right associativity).
Notation "' p <- c ;; k" := (bind c (fun x => let: p := x in k))
  (at level 100, p pattern, c at next level, right associativity).

(* A [for] loop whose body may raise: the state is threaded through the
   iterations and the first exception ends the loop. *)
Fixpoint foldM {A B : Type} (f : B -> A -> res B) (b : B) (s : seq A) : res B :=
  match s with
  | [::] => Ok b
  | x :: s' => b' <- f b x ;; foldM f b' s'
  end.

(* A comprehension whose body may raise. *)
Fixpoint mapM {A B : Type} (f : A -> res B) (s : seq A) : res (seq B) :=
  match s with
  | [::] => Ok [::]
  | x :: s' => y <- f x ;; ys <- mapM f s' ;; Ok (y :: ys)
  end.

(* range(0, n) *)
Definition range (n : nat) : seq nat := iota 0 n.

Arguments range : simpl never.

(* s[i] for a non-negative index: IndexError past the end. *)
Definition getitem {A : Type} (s : seq A) (i : nat) : res A :=
  match drop i s with
  | x :: _ => Ok x
  | [::] => Err IndexError
  end.

(* s[i] = v for a non-negative index: IndexError past the end. *)
Definition setitem {A : Type} (s : seq A) (i : nat) (v : A) : res (seq A) :=
  match drop i s with
  | _ :: tl => Ok (take i s ++ v :: tl)
  | [::] => Err IndexError
  end.

(* --------------------------------------------------------------------- *)
(* Strings: str.lower() on byte strings                                   *)
(* --------------------------------------------------------------------- *)

Definition ascii_lower (c : ascii) : ascii :=
  let n := nat_of_ascii c in
  if (65 <= n) && (n <= 90) then ascii_of_nat (n + 32) else c.

Fixpoint str_lower (s : string) : string :=
  match s with
  | EmptyString => EmptyString
  | String c s' => String (ascii_lower c) (str_lower s')
  end.

(* --------------------------------------------------------------------- *)
(* numpy arrays                                                           *)
(* --------------------------------------------------------------------- *)

Section Arrays.

Variable T : Type.

Definition matrix : Type := seq (seq T).

(* M.shape for a 2-D array *)
Definition nrows (M : matrix) : nat := size M.
Definition ncols (M : matrix) : nat := size (head [::] M).

(* an n x d array: n rows, every one of d entries *)
Definition has_shape (n d : nat) (M : matrix) : bool :=
  (size M == n) && all (fun r => size r == d) M.

(* M[j, i] read with a default, for an index known to be in range *)
Definition entry (x0 : T) (M : matrix) (j i : nat) : T :=
  nth x0 (nth [::] M j) i.

(* M[:, i] *)
Definition column (M : matrix) (i : nat) : res (seq T) :=
  mapM (fun r => getitem r i) M.

(* M[j, i] *)
Definition getitem2 (M : matrix) (j i : nat) : res T :=
  r <- getitem M j ;; getitem r i.

(* M[j, i] = v *)
Definition setitem2 (M : matrix) (j i : nat) (v : T) : res matrix :=
  r <- getitem M j ;; r' <- setitem r i v ;; setitem M j r'.

(* M[:, i] = v, for a 1-D v of as many entries as M has rows *)
Definition setcolumn (M : matrix) (i : nat) (v : seq T) : res matrix :=
  if size v == size M then mapM (fun rv => setitem rv.1 i rv.2) (zip M v)
  else Err ValueError.

(* M.T for an array of d columns *)
Definition transpose (x0 : T) (d : nat) (M : matrix) : matrix :=
  [seq [seq nth x0 r i | r <- M] | i <- range d].

(* np.concatenate((A, B), axis = 1) *)
Definition concatenate1 (A B : matrix) : res matrix :=
  if size A == size B then Ok [seq ab.1 ++ ab.2 | ab <- zip A B]
  else Err ValueError.

End Arrays.

(* --------------------------------------------------------------------- *)
(* The Basis capability                                                   *)
(* --------------------------------------------------------------------- *)

Module Basis.

(** Modelled from the spec: the Basis class is not part of poly.py.  The
    spec gives a Basis an ordered multi-index table (one row per term, one
    column per dimension) and a vector of per-dimension maximum orders;
    poly.py reads [elements] and [orders] and calls [setOrders]. *)
Record t : Type := Make { elements : seq (seq nat); orders : seq nat }.


End Basis.

(* np.max: ValueError on an empty array *)
Definition npmax (s : seq nat) : res nat :=
  match s with
  | x :: s' => Ok (foldl maxn x s')
  | [::] => Err ValueError
  end.

Definition ref : Type := nat.

Definition default_number_of_points : nat := 20000.

(* --------------------------------------------------------------------- *)
(* The Poly class                                                         *)
(* --------------------------------------------------------------------- *)

Section PolyClass.

(* R: the numbers; rng: the state of the random generator that the
   Parameters' samplers read and advance. *)
Variable R : numFieldType.
Variable rng : Type.

(** Modelled from the spec: the Parameter class is not part of poly.py.
    The spec gives a Parameter a distribution kind, bounds, a requested
    order, univariate orthogonal polynomial values and derivatives per
    degree and point, a 1-D quadrature rule per point count, and a
    sampler. *)
(* ([Parameter] is a reserved word here: the class is named [Param].) *)
Record Param : Type := MkParam {
  param_type : string;
  lower : R;
  upper : R;
  order : nat;
  orthoPoly_value : nat -> R -> R;
  orthoPoly_derivative : nat -> R -> R;
  _getLocalQuadrature : nat -> seq R * seq R;
  getSamples : nat -> rng -> seq R * rng
}.

(** Modelled from the spec: [orthoPoly(points, maxDegree)] returns the
    values and the derivatives for the degrees 0 .. maxDegree, one row per
    degree and one entry per point; without a degree the Parameter's own
    order is used. *)
Definition _getOrthoPoly (prm : Param) (points : seq R) (maxDegree : option nat)
  : matrix R * matrix R :=
  let n := if maxDegree is Some o then o else order prm in
  ([seq [seq orthoPoly_value prm g x | x <- points] | g <- range n.+1],
   [seq [seq orthoPoly_derivative prm g x | x <- points] | g <- range n.+1]).

Arguments _getOrthoPoly : simpl never.

(* self.parameters[i] read with a default, for an index known to be in
   range *)
Definition no_param : Param :=
  MkParam EmptyString 0%R 0%R 0 (fun _ _ => 0%R) (fun _ _ => 0%R)
          (fun _ => ([::], [::])) (fun _ g => ([::], g)).

(* A Poly object: its attributes.  [coefficients] and [designMatrix] are
   attributes that exist only once their setter has run. *)
Record Poly : Type := MkPoly {
  parameters : ref;
  basis : ref;
  dimensions : nat;
  orders : seq nat;
  coefficients : option (matrix R);
  designMatrix : option (matrix R)
}.

(* The heap: Parameter lists and Basis objects by reference, and the Poly
   objects allocated so far (a reference is an index). *)
Record heap : Type := MkHeap {
  plists : ref -> seq Param;
  bases : ref -> Basis.t;
  polys : seq Poly
}.


Definition __setCoefficients__ (h : heap) (self : ref) (c : matrix R) : res heap :=
  obj <- getitem (polys h) self ;;
  ps <- setitem (polys h) self
          {| parameters := parameters obj; basis := basis obj;
             dimensions := dimensions obj; orders := orders obj;
             coefficients := Some c; designMatrix := designMatrix obj |} ;;
  Ok {| plists := plists h; bases := bases h; polys := ps |}.

Definition __setDesignMatrix__ (h : heap) (self : ref) (m : matrix R) : res heap :=
  obj <- getitem (polys h) self ;;
  ps <- setitem (polys h) self
          {| parameters := parameters obj; basis := basis obj;
             dimensions := dimensions obj; orders := orders obj;
             coefficients := coefficients obj; designMatrix := Some m |} ;;
  Ok {| plists := plists h; bases := bases h; polys := ps |}.


(* The methods below only read: they are given the heap and the attributes
   of self. *)

(* One pass of the body of the two loops of scaleInputs. *)
Definition scale_entry (plist : seq Param) (points : matrix R) (i j : nat)
  : res (matrix R) :=
  prm <- getitem plist i ;;
  if String.eqb (param_type prm) "Uniform" then
    x <- getitem2 points j i ;;
    setitem2 points j i
      (2%:R * ((x - lower prm) / (upper prm - lower prm)) - 1)%R
  else if String.eqb (param_type prm) "Beta" then
    x <- getitem2 points j i ;;
    setitem2 points j i ((x - lower prm) / (upper prm - lower prm))%R
  else Ok points.

(* What one pass writes at points[j,i], as a function of what it reads. *)
Definition scale_value (prm : Param) (x : R) : R :=
  if String.eqb (param_type prm) "Uniform" then
    (2%:R * ((x - lower prm) / (upper prm - lower prm)) - 1)%R
  else if String.eqb (param_type prm) "Beta" then
    ((x - lower prm) / (upper prm - lower prm))%R
  else x.

Definition scaleInputs (h : heap) (self : Poly) (x_points_scaled : matrix R)
  : res (matrix R) :=
  let rows := nrows x_points_scaled in
  let points := x_points_scaled in
  foldM (fun points i =>
           foldM (fun points j => scale_entry (plists h (parameters self)) points i j)
                 points (range rows))
        points (range (dimensions self)).

(* a * b for two 1-D arrays of one length *)
Definition mulv (a b : seq R) : seq R := [seq (x.1 * x.2)%R | x <- zip a b].

Definition zeros (n d : nat) : matrix R := nseq n (nseq d 0%R).
Definition ones (n d : nat) : matrix R := nseq n (nseq d 1%R).

(* The loop that fills the univariate tables: p[i], dp[i] for every
   dimension i, for the degrees up to the largest one of column i of the
   basis plus [extra] (getPolynomial: extra = 0, and dp is dropped;
   getPolynomialGradient: extra = 1). *)
Definition univariate_tables (plist : seq Param) (basis : seq (seq nat))
    (stackOfPoints : matrix R) (dimensions extra : nat)
  : res (seq (matrix R) * seq (matrix R)) :=
  foldM (fun (pdp : seq (matrix R) * seq (matrix R)) i =>
           prm <- getitem plist i ;;
           pts <- column stackOfPoints i ;;
           bcol <- column basis i ;;
           mx <- npmax bcol ;;
           let v := _getOrthoPoly prm pts (Some (mx + extra)) in
           Ok (rcons pdp.1 v.1, rcons pdp.2 v.2))
        ([::], [::]) (range dimensions).

(* "One loop for polynomials": every row i of the result is the running
   pointwise product temp of one row of every univariate table;
   [table k] is the table looked up for dimension k. *)
Definition assemble_rows (table : nat -> res (matrix R)) (basis : seq (seq nat))
    (basis_entries dimensions no_of_points : nat) : res (matrix R) :=
  let polynomial := zeros basis_entries no_of_points in
  foldM (fun polynomial i =>
           st <- foldM (fun (st : matrix R * seq R) k =>
                          tbl <- table k ;;
                          b <- getitem2 basis i k ;;
                          row <- getitem tbl b ;;
                          polynomial <- setitem st.1 i (mulv row st.2) ;;
                          temp <- getitem polynomial i ;;
                          Ok (polynomial, temp))
                       (polynomial, nseq no_of_points 1%R) (range dimensions) ;;
           Ok st.1)
        polynomial (range basis_entries).

Definition getPolynomial (h : heap) (self : Poly) (stackOfPoints : matrix R)
  : res (matrix R) :=
  let plist := plists h (parameters self) in
  let basis := Basis.elements (bases h (basis self)) in
  let basis_entries := nrows basis in
  let dimensions := ncols basis in
  let no_of_points := nrows stackOfPoints in
  if dimensions == 1 then
    prm <- getitem plist 0 ;;
    mx <- npmax (flatten basis) ;;
    Ok (_getOrthoPoly prm (flatten stackOfPoints) (Some mx)).1
  else
    pdp <- univariate_tables plist basis stackOfPoints dimensions 0 ;;
    assemble_rows (fun k => getitem pdp.1 k) basis
                  basis_entries dimensions no_of_points.

(* What getPolynomialGradient returns: the univariate table on the d == 1
   path, the list R of one array per direction otherwise. *)
Inductive gradient : Type :=
| Univariate (poly : matrix R)
| Directions (R : seq (matrix R)).

Definition getPolynomialGradient (h : heap) (self : Poly) (stackOfPoints : matrix R)
  : res gradient :=
  let plist := plists h (parameters self) in
  let basis := Basis.elements (bases h (basis self)) in
  let basis_entries := nrows basis in
  let dimensions := ncols basis in
  let no_of_points := nrows stackOfPoints in
  if dimensions == 1 then
    prm <- getitem plist 0 ;;
    Ok (Univariate (_getOrthoPoly prm (flatten stackOfPoints) None).1)
  else
    pdp <- univariate_tables plist basis stackOfPoints dimensions 1 ;;
    Rs <- foldM (fun Rs v =>
                   let gradDirection := v in
                   polynomialgradient <-
                     assemble_rows (fun k => if k == gradDirection
                                             then getitem pdp.2 k
                                             else getitem pdp.1 k)
                                   basis basis_entries dimensions no_of_points ;;
                   Ok (rcons Rs polynomialgradient))
                [::] (range dimensions) ;;
    Ok (Directions Rs).

(* np.kron on two 1-D arrays *)
Definition kron1 (a b : seq R) : seq R := [seq (x * y)%R | x <- a, y <- b].

(* np.kron on two 2-D arrays *)
Definition kron2 (A B : matrix R) : matrix R :=
  [seq kron1 ra rb | ra <- A, rb <- B].

(* One pass of the loop of getTensorQuadratureRule.  The 1-D rule gives its
   points as a column, here the seq of its entries. *)
Definition tensor_step (plist : seq Param) (orders : seq nat)
    (st : matrix R * seq R) (u : nat) : res (matrix R * seq R) :=
  let pp := st.1 in
  let ww := st.2 in
  prm <- getitem plist u ;;
  o <- getitem orders u ;;
  let local_points := (_getLocalQuadrature prm (o + 1)).1 in
  let local_weights := (_getLocalQuadrature prm (o + 1)).2 in
  let ww := kron1 ww local_weights in
  let dummy_vec := ones (size local_points) 1 in
  let dummy_vec2 := ones (size pp) 1 in
  let left_side := kron2 pp dummy_vec in
  let right_side := kron2 dummy_vec2 [seq [:: x] | x <- local_points] in
  pp <- concatenate1 left_side right_side ;;
  Ok (pp, ww).

(* The 1-D rule that pass u of the loop asks of Parameter u. *)
Definition local_rule (plist : seq Param) (orders : seq nat) (u : nat)
  : seq R * seq R :=
  _getLocalQuadrature (nth no_param plist u) (nth 0 orders u + 1).

(* The loop as two folds: what pp and ww hold after the first u passes
   (pp with its leading column of ones). *)
Definition tensor_points (plist : seq Param) (orders : seq nat) (u : nat) : matrix R :=
  foldl (fun pp k => [seq rcons r x | r <- pp, x <- (local_rule plist orders k).1])
        [:: [:: 1%R]] (range u).

Definition tensor_weights (plist : seq Param) (orders : seq nat) (u : nat) : seq R :=
  foldl (fun ww k => kron1 ww (local_rule plist orders k).2) [:: 1%R] (range u).

(* The state of the loop after its first u passes.  pp = [1.0] enters
   np.kron as the 1 x 1 array it is promoted to. *)
Definition tensor_loop (plist : seq Param) (orders : seq nat) (u : nat)
  : res (matrix R * seq R) :=
  foldM (tensor_step plist orders) ([:: [:: 1%R]], [:: 1%R]) (range u).

Definition getTensorQuadratureRule (h : heap) (self : Poly) (orders_arg : option (seq nat))
  : res (matrix R * seq R) :=
  let orders := if orders_arg is Some o then o else orders self in
  st <- tensor_loop (plists h (parameters self)) orders (dimensions self) ;;
  (* pp[:,1::] : with no pass of the loop, pp is still the list [1.0] *)
  if dimensions self == 0 then Err TypeError
  else Ok ([seq drop 1 r | r <- st.1], st.2).

(* samples.reshape((N,)) *)
Definition reshape (N : nat) (v : seq R) : res (seq R) :=
  if size v == N then Ok v else Err ValueError.

(* The 'qmc' branch of getQuadratureRule, for N = default_number_of_points:
   the samples of every Parameter fill one column of p; the generator state
   is threaded through the draws. *)
Definition quasi_random (plist : seq Param) (dimensions N : nat) (g : rng)
  : res (matrix R * seq R * rng) :=
  let p := zeros N dimensions in
  let w := [seq (1 / N%:R * x)%R | x <- nseq N 1%R] in
  pg <- foldM (fun (pg : matrix R * rng) i =>
                 prm <- getitem plist i ;;
                 let smp := getSamples prm N pg.2 in
                 col <- reshape N smp.1 ;;
                 p <- setcolumn pg.1 i col ;;
                 Ok (p, smp.2))
              (p, g) (range dimensions) ;;
  Ok (pg.1, w, pg.2).



(* The result is None (Python's), or the pair p, w; the generator state is
   returned with it. *)
Definition getQuadratureRule (h : heap) (self : Poly) (options : option string) (g : rng)
  : res (option (matrix R * seq R) * rng) :=
  let options :=
    if options is None then
      if 8 < dimensions self then Some "qmc"%string
      else if dimensions self < 8 then Some "tensor grid"%string
      else None
    else options in
  match options with
  | None => Err AttributeError
  | Some s =>
    if String.eqb (str_lower s) "qmc" then
      pwg <- quasi_random (plists h (parameters self)) (dimensions self)
                          default_number_of_points g ;;
      Ok (Some pwg.1, pwg.2)
    else if String.eqb (str_lower s) "tensor grid" then
      pw <- getTensorQuadratureRule h self
              (Some [seq 2 * i | i <- Basis.orders (bases h (basis self))]) ;;
      Ok (Some pw, g)
    else Ok (None, g)
  end.

(* self.coefficients *)
Definition get_coefficients (self : Poly) : res (matrix R) :=
  if coefficients self is Some c then Ok c else Err AttributeError.

(* A * B for two matrices *)
Definition matmul (A B : matrix R) : res (matrix R) :=
  if all (fun r => size r == size B) A then
    Ok [seq [seq (\sum_(x <- zip r [seq nth 0 b j | b <- B]) x.1 * x.2)%R
            | j <- range (ncols B)] | r <- A]
  else Err ValueError.

(* H[i] as the 2-D operand of the product *)
Definition gradient_item (H : gradient) (i : nat) : res (matrix R) :=
  match H with
  | Univariate poly => r <- getitem poly i ;; Ok [:: r]
  | Directions Rs => getitem Rs i
  end.

Definition evaluatePolyGradFit (h : heap) (self : Poly) (xvalue : matrix R)
  : res (matrix R) :=
  xs <- scaleInputs h self xvalue ;;
  H <- getPolynomialGradient h self xs ;;
  let grads := zeros (dimensions self) (size xvalue) in
  foldM (fun grads i =>
           c <- get_coefficients self ;;
           Hi <- gradient_item H i ;;
           prod <- matmul (transpose 0%R (ncols c) c) Hi ;;
           match prod with
           | [:: row] => if size row == size xvalue then setitem grads i row
                         else Err ValueError
           | _ => Err ValueError
           end)
        grads (range (dimensions self)).

Definition evaluatePolyFit (h : heap) (self : Poly) (x : matrix R) : res (matrix R) :=
  xs <- scaleInputs h self x ;;
  P <- getPolynomial h self xs ;;
  c <- get_coefficients self ;;
  matmul (transpose 0%R (ncols P) P) c.

(** Modelled from the spec: the Statistics class is not part of poly.py; it
    is constructed from six values (coefficients, basis, parameters, nodes,
    weights, basis values) and is otherwise opaque to the core. *)
Record Statistics : Type := MkStatistics {
  stat_coefficients : matrix R;
  stat_basis : ref;
  stat_parameters : ref;
  stat_points : matrix R;
  stat_weights : seq R;
  stat_evals : matrix R
}.

(* p, w = self.getQuadratureRule(...): unpacking None raises TypeError.
   The arguments of Statistics(...) are read from left to right, the
   coefficients first. *)
Definition getStatistics (h : heap) (self : Poly) (quadratureRule : option string)
    (g : rng) : res (Statistics * rng) :=
  r <- getQuadratureRule h self quadratureRule g ;;
  match r.1 with
  | None => Err TypeError
  | Some pw =>
    xs <- scaleInputs h self pw.1 ;;
    evals <- getPolynomial h self xs ;;
    c <- get_coefficients self ;;
    Ok (MkStatistics c (basis self) (parameters self) pw.1 pw.2 evals, r.2)
  end.

(* The digit of the row number r of a tensor grid that belongs to
   dimension k: the index into the k-th 1-D rule (counts: the point counts
   of the d rules). *)
Definition tensor_digit (counts : nat -> nat) (d k r : nat) : nat :=
  (r %/ \prod_(k.+1 <= l < d) counts l) %% counts k.

(* the kinds of Parameter that scaleInputs leaves alone *)
Definition unscaled (prm : Param) : bool :=
  ~~ String.eqb (param_type prm) "Uniform" && ~~ String.eqb (param_type prm) "Beta".

End PolyClass.

(* --------------------------------------------------------------------- *)
(* A concrete core object: two Uniform parameters on [-1, 1] of order 2,  *)
(* rational numbers, a counter as generator state, and the basis of the   *)
(* six multi-indices of total degree at most 2.                           *)
(* --------------------------------------------------------------------- *)

Module Example.

(* Legendre values and derivatives (degrees 0, 1, 2) *)
Definition legendre (g : nat) (x : rat) : rat :=
  match g with
  | 0 => 1%R
  | 1 => x
  | _ => ((3%:R * x * x - 1) / 2%:R)%R
  end.

Definition legendre' (g : nat) (x : rat) : rat :=
  match g with
  | 0 => 0%R
  | 1 => 1%R
  | _ => (3%:R * x)%R
  end.

(* n equal weights 1/n; the sampler returns the counter and advances it *)
Definition uniform2 : Param rat nat :=
  MkParam "Uniform" (-1)%R 1%R 2 legendre legendre'
          (fun n => (nseq n 0%R, nseq n (1 / n%:R)%R))
          (fun m g => (nseq m (g%:R)%R, g.+1)).

Definition table : seq (seq nat) :=
  [:: [:: 0; 0]; [:: 1; 0]; [:: 0; 1]; [:: 2; 0]; [:: 1; 1]; [:: 0; 2]].


(* the core object that Poly(parameters, basis) builds, and the heap then *)
Definition poly0 : Poly rat :=
  MkPoly 0 0 2 [:: 2; 2] None None.

Definition heap1 : heap rat nat :=
  MkHeap (fun _ => [:: uniform2; uniform2])
         (fun r => if r == 0 then Basis.Make table [:: 2; 2] else Basis.Make table [::])
         [:: poly0].

(* a univariate core object: one parameter, a basis of one column *)
Definition poly1 : Poly rat :=
  MkPoly 1 1 1 [:: 2] None None.

Definition heap2 : heap rat nat :=
  MkHeap (fun _ => [:: uniform2]) (fun _ => Basis.Make [:: [:: 0]; [:: 1]; [:: 2]] [:: 2])
         [:: poly1].

(* a core object of eight dimensions *)
Definition poly8 : Poly rat :=
  MkPoly 0 0 8 (nseq 8 2) None None.

Definition heap8 : heap rat nat :=
  MkHeap (fun _ => nseq 8 uniform2) (fun _ => Basis.Make [:: nseq 8 0] (nseq 8 2))
         [:: poly8].

(* the core object poly0 once fitted with the constant surrogate 1 *)
Definition fitted0 : Poly rat :=
  MkPoly 0 0 2 [:: 2; 2]
         (Some [:: [:: 1%R]; [:: 0%R]; [:: 0%R]; [:: 0%R]; [:: 0%R]; [:: 0%R]]) None.

(* poly0 with a coefficient array of one row only *)
Definition misfitted0 : Poly rat :=
  MkPoly 0 0 2 [:: 2; 2] (Some [:: [:: 1%R]]) None.

(* the univariate core object poly1 once fitted *)
Definition fitted1 : Poly rat :=
  MkPoly 1 1 1 [:: 2] (Some [:: [:: 1%R]; [:: 0%R]; [:: 0%R]]) None.

(* a Parameter of a kind that scaleInputs does not know *)
Definition gaussian : Param rat nat :=
  MkParam "Gaussian" 0%R 1%R 2 legendre legendre'
          (fun n => (nseq n 0%R, nseq n (1 / n%:R)%R))
          (fun m g => (nseq m (g%:R)%R, g.+1)).

Definition heap3 : heap rat nat :=
  MkHeap (fun _ => [:: gaussian; gaussian]) (fun _ => Basis.Make table [:: 2; 2])
         [:: poly0].

End Example.

(* ===================================================================== *)
(* Properties                                                             *)
(* ===================================================================== *)

Section PolyProperties.

Variable R : numFieldType.
Variable rng : Type.

Local Notation Param := (Param R rng).
Local Notation heap := (heap R rng).
Local Notation Poly := (Poly R).
Local Notation gradient := (gradient R).
Local Notation no_param := (no_param R rng).
Local Notation zeros := (zeros R).
Local Notation ones := (ones R).

(* --------------------------------------------------------------------- *)
(* Indexing, loops and comprehensions                                     *)
(* --------------------------------------------------------------------- *)

Section Generic.

Variables A B : Type.

Lemma bind_Ok (a : A) (k : A -> res B) : bind (Ok a) k = k a.
Proof. by []. Qed.

Lemma getitem_nth (x0 : A) (s : seq A) (i : nat) :
  i < size s -> getitem s i = Ok (nth x0 s i).
Proof. by move=> lt_i; rewrite /getitem (drop_nth x0 lt_i). Qed.

Lemma getitem_out (s : seq A) (i : nat) :
  size s <= i -> getitem s i = Err IndexError.
Proof. by move=> le_i; rewrite /getitem drop_oversize. Qed.

Lemma getitem_Ok (x0 : A) (s : seq A) (i : nat) (x : A) :
  getitem s i = Ok x -> i < size s /\ x = nth x0 s i.
Proof.
case: (ltnP i (size s)) => [lt_i|le_i]; last by rewrite getitem_out.
by rewrite (getitem_nth x0 lt_i) => -[<-].
Qed.

Lemma setitem_Ok (s : seq A) (i : nat) (v : A) :
  i < size s -> setitem s i v = Ok (take i s ++ v :: drop i.+1 s).
Proof.
move=> lt_i; rewrite /setitem.
by case: (drop i s) (drop_nth v lt_i) (drop_drop s 1 i) => [|x tl] //= _; rewrite add1n drop0 => <-.
Qed.

Lemma size_upd (s : seq A) (i : nat) (v : A) :
  i < size s -> size (take i s ++ v :: drop i.+1 s) = size s.
Proof.
move=> lt_i; rewrite size_cat /= size_drop (size_takel (ltnW lt_i)).
by rewrite subnSK // subnKC // ltnW.
Qed.

Lemma nth_upd (x0 : A) (s : seq A) (i k : nat) (v : A) :
  i < size s ->
  nth x0 (take i s ++ v :: drop i.+1 s) k = if k == i then v else nth x0 s k.
Proof.
move=> lt_i; rewrite nth_cat (size_takel (ltnW lt_i)).
case: (ltngtP k i) => [lt_k|gt_k|->]; first by rewrite nth_take.
  by rewrite -(subnSK gt_k) /= nth_drop subnKC.
by rewrite subnn.
Qed.

(* A loop over range(n) that keeps an invariant returns, in a state that
   satisfies it. *)
Lemma foldM_range (f : B -> nat -> res B) (I : nat -> B -> Prop) (n : nat) (b0 : B) :
  I 0 b0 ->
  (forall k b, k < n -> I k b -> exists2 b', f b k = Ok b' & I k.+1 b') ->
  exists2 b, foldM f b0 (range n) = Ok b & I n b.
Proof.
move=> I0 step.
have gen : forall k m b, m + k = n -> I m b ->
    exists2 b', foldM f b (iota m k) = Ok b' & I n b'.
  elim=> [|k IH] m b.
    by rewrite addn0 => <- Ib; exists b.
  rewrite addnS => eq_n Ib /=.
  have lt_m : m < n by rewrite -eq_n ltnS leq_addr.
  have [b' -> Ib'] := step m b lt_m Ib.
  by apply: IH Ib'; rewrite addSn.
exact: gen.
Qed.

Lemma mapM_Ok (f : A -> res B) (g : A -> B) (p : pred A) (s : seq A) :
  (forall x, p x -> f x = Ok (g x)) -> all p s -> mapM f s = Ok [seq g x | x <- s].
Proof.
move=> H; elim: s => [|x s IH] //= /andP [px ps].
by rewrite (H x px) /= IH.
Qed.

End Generic.

Lemma all_nth_size (A : Type) (d : nat) (M : seq (seq A)) (j : nat) :
  all (fun r => size r == d) M -> j < size M -> size (nth [::] M j) = d.
Proof. by move=> /all_nthP H lt_j; apply/eqP/H. Qed.

Lemma column_Ok (A : Type) (x0 : A) (M : matrix A) (d i : nat) :
  all (fun r => size r == d) M -> i < d ->
  column M i = Ok [seq nth x0 r i | r <- M].
Proof.
move=> Hall lt_i; apply: mapM_Ok Hall => r /eqP Hr.
by apply: getitem_nth; rewrite Hr.
Qed.

(* --------------------------------------------------------------------- *)
(* 2-D indexing                                                           *)
(* --------------------------------------------------------------------- *)

Section Indexing2.

Variable T : Type.
Variable t0 : T.

Lemma has_shapeP (n d : nat) (M : matrix T) :
  has_shape n d M ->
  size M = n /\ (forall j, j < n -> size (nth [::] M j) = d).
Proof.
case/andP=> /eqP szM Hall; split=> // j lt_j.
by apply: all_nth_size Hall _; rewrite szM.
Qed.

Lemma has_shape_nth (n d : nat) (M : matrix T) :
  size M = n -> (forall j, j < n -> size (nth [::] M j) = d) -> has_shape n d M.
Proof.
move=> szM Hrow; rewrite /has_shape szM eqxx /=.
by apply/(all_nthP [::]) => j; rewrite szM => lt_j; rewrite Hrow.
Qed.

Lemma getitem2_nth (n d : nat) (M : matrix T) (j i : nat) :
  has_shape n d M -> j < n -> i < d -> getitem2 M j i = Ok (entry t0 M j i).
Proof.
case/has_shapeP=> szM Hrow lt_j lt_i.
rewrite /getitem2 (getitem_nth [::]) ?szM //=.
by apply: getitem_nth; rewrite Hrow.
Qed.

Lemma setitem2_spec (n d : nat) (M : matrix T) (j i : nat) (v : T) :
  has_shape n d M -> j < n -> i < d ->
  exists2 M', setitem2 M j i v = Ok M' &
    has_shape n d M' /\
    forall j' i', entry t0 M' j' i' = if (j' == j) && (i' == i) then v else entry t0 M j' i'.
Proof.
case/has_shapeP=> szM Hrow lt_j lt_i.
have lt_jM : j < size M by rewrite szM.
have lt_ir : i < size (nth [::] M j) by rewrite Hrow.
rewrite /setitem2 (getitem_nth [::] lt_jM) /= (setitem_Ok _ lt_ir) /=.
rewrite (setitem_Ok _ lt_jM); eexists; first by [].
split.
  apply: has_shape_nth; first by rewrite size_upd.
  move=> k lt_k; rewrite nth_upd //; case: eqP => [_|_]; last exact: Hrow.
  by rewrite size_upd // Hrow.
move=> j' i'; rewrite /entry nth_upd //; case: eqP => [->|_] //=.
by rewrite nth_upd.
Qed.

End Indexing2.

(* --------------------------------------------------------------------- *)
(* scaleInputs                                                            *)
(* --------------------------------------------------------------------- *)

Section ScaleInputs.

Variables (plist : seq Param) (n d : nat).
Hypothesis size_plist : size plist = d.

Lemma scale_entry_spec (points : matrix R) (i j : nat) :
  has_shape n d points -> i < d -> j < n ->
  exists2 points', scale_entry plist points i j = Ok points' &
    has_shape n d points' /\
    forall j' i', entry 0%R points' j' i' =
      if (j' == j) && (i' == i)
      then scale_value (nth no_param plist i) (entry 0%R points j i)
      else entry 0%R points j' i'.
Proof.
move=> shp lt_i lt_j.
rewrite /scale_entry (getitem_nth no_param) ?size_plist //= /scale_value.
have rd := getitem2_nth 0%R shp lt_j lt_i.
case: (String.eqb _ "Uniform").
  by rewrite rd /=; apply: setitem2_spec.
case: (String.eqb _ "Beta").
  by rewrite rd /=; apply: setitem2_spec.
exists points => //; split=> // j' i'.
by case: andP => // -[/eqP -> /eqP ->].
Qed.

Lemma scale_column_spec (points : matrix R) (i : nat) :
  has_shape n d points -> i < d ->
  exists2 points',
    foldM (fun pts j => scale_entry plist pts i j) points (range n) = Ok points' &
    has_shape n d points' /\
    forall j' i', j' < n -> entry 0%R points' j' i' =
      if i' == i then scale_value (nth no_param plist i) (entry 0%R points j' i)
      else entry 0%R points j' i'.
Proof.
move=> shp lt_i.
pose J (j : nat) (pts : matrix R) :=
  has_shape n d pts /\
  forall j' i', entry 0%R pts j' i' =
    if (i' == i) && (j' < j)
    then scale_value (nth no_param plist i) (entry 0%R points j' i)
    else entry 0%R points j' i'.
have J0 : J 0%N points by split=> // j' i'; rewrite ltn0 andbF.
have step (j : nat) (pts : matrix R) : j < n -> J j pts ->
    exists2 pts', scale_entry plist pts i j = Ok pts' & J j.+1 pts'.
  move=> lt_j [shp' Hpts].
  have [pts' -> [shp'' Hpts']] := scale_entry_spec shp' lt_i lt_j.
  exists pts' => //; split=> // j' i'.
  rewrite Hpts' !Hpts ltnn andbF ltnS [j' <= j]leq_eqVlt.
  case: (i' =P i) => [->|_]; last by rewrite andbF.
  by rewrite andbT /=; case: (j' =P j) => [->|_].
have [pts -> [shp' Hpts]] := foldM_range J0 step.
exists pts => //; split=> // j' i' lt_j'.
by rewrite Hpts lt_j' andbT.
Qed.

Lemma scale_loops_spec (x : matrix R) :
  has_shape n d x ->
  exists2 y,
    foldM (fun pts i => foldM (fun pts j => scale_entry plist pts i j) pts (range n))
          x (range d) = Ok y &
    has_shape n d y /\
    forall j i, j < n -> i < d ->
      entry 0%R y j i = scale_value (nth no_param plist i) (entry 0%R x j i).
Proof.
move=> shp.
pose I (i : nat) (pts : matrix R) :=
  has_shape n d pts /\
  forall j' i', j' < n -> entry 0%R pts j' i' =
    if i' < i then scale_value (nth no_param plist i') (entry 0%R x j' i')
    else entry 0%R x j' i'.
have I0 : I 0%N x by split.
have step (i : nat) (pts : matrix R) : i < d -> I i pts ->
    exists2 pts',
      foldM (fun pts j => scale_entry plist pts i j) pts (range n) = Ok pts' &
      I i.+1 pts'.
  move=> lt_i [shp' Hpts].
  have [pts' -> [shp'' Hpts']] := scale_column_spec shp' lt_i.
  exists pts' => //; split=> // j' i' lt_j'.
  rewrite Hpts' // ltnS leq_eqVlt; case: (i' =P i) => [->|_] /=.
    by rewrite Hpts // ltnn.
  by rewrite Hpts.
have [y -> [shp' Hy]] := foldM_range I0 step.
by exists y => //; split=> // j i lt_j lt_i; rewrite Hy // lt_i.
Qed.

End ScaleInputs.

(** C5. For an n x d input, scaleInputs returns an n x d array in which
    every column is transformed by the kind of its Parameter: a Uniform
    column by 2*(x - lower)/(upper - lower) - 1, which sends lower to -1
    and upper to 1; a Beta column by (x - lower)/(upper - lower), which
    sends lower to 0 and upper to 1; a column of any other kind is left
    as it is.  (The bounds of a distribution differ.) *)
Theorem scaleInputs_columns (h : heap) (self : Poly) (x : matrix R) (n : nat) :
  size (plists h (parameters self)) = dimensions self ->
  has_shape n (dimensions self) x ->
  exists2 y, scaleInputs h self x = Ok y &
    has_shape n (dimensions self) y /\
    forall i j prm, i < dimensions self -> j < n ->
      getitem (plists h (parameters self)) i = Ok prm ->
      let xji := entry 0%R x j i in
      let yji := entry 0%R y j i in
      let lo := lower prm in
      let up := upper prm in
      (param_type prm = "Uniform"%string ->
         yji = (2%:R * ((xji - lo) / (up - lo)) - 1)%R /\
         (lo != up -> xji = lo -> yji = (-1)%R) /\
         (lo != up -> xji = up -> yji = 1%R)) /\
      (param_type prm = "Beta"%string ->
         yji = ((xji - lo) / (up - lo))%R /\
         (lo != up -> xji = lo -> yji = 0%R) /\
         (lo != up -> xji = up -> yji = 1%R)) /\
      (param_type prm <> "Uniform"%string -> param_type prm <> "Beta"%string ->
         yji = xji).
Proof.
move=> sz shp.
have [y eq_y [shp' Hy]] := scale_loops_spec sz shp.
have szx : size x = n by case/andP: shp => /eqP.
exists y; first by rewrite /scaleInputs /nrows szx.
split=> // i j prm lt_i lt_j /(getitem_Ok no_param) [_ ->] /=.
rewrite (Hy _ _ lt_j lt_i) /scale_value.
set prm' := nth _ _ _; set xji := entry _ _ _ _.
have up_lo : lower prm' != upper prm' -> (upper prm' - lower prm' != 0)%R.
  by move=> ne; rewrite subr_eq0 eq_sym.
split; [|split].
- move=> ->; rewrite String.eqb_refl; split=> //; split=> ne ->.
    by rewrite subrr mul0r mulr0 sub0r.
  by rewrite divff ?up_lo // mulr1 mulr2n addrK.
- move=> -> /=; split=> //; split=> ne ->.
    by rewrite subrr mul0r.
  by rewrite divff ?up_lo.
- move=> /String.eqb_neq -> /String.eqb_neq ->.
  by [].
Qed.

(* --------------------------------------------------------------------- *)
(* The univariate tables and the assembly of the rows                     *)
(* --------------------------------------------------------------------- *)

Lemma map_range (A B : Type) (x0 : A) (f : A -> B) (s : seq A) :
  [seq f x | x <- s] = [seq f (nth x0 s j) | j <- range (size s)].
Proof. by rewrite -{1}(mkseq_nth x0 s) /mkseq -map_comp. Qed.

Lemma map_range_const (A : Type) (c : A) (n : nat) :
  [seq c | _ <- range n] = nseq n c.
Proof. by rewrite /range; elim: n 0 => [|n IH] a //=; rewrite IH. Qed.

Lemma nth_map_range (A : Type) (x0 : A) (f : nat -> A) (n j : nat) :
  j < n -> nth x0 [seq f k | k <- range n] j = f j.
Proof. by move=> lt_j; rewrite (nth_map 0) ?size_iota // nth_iota. Qed.

Lemma mulv_map (s : seq nat) (a b : nat -> R) :
  mulv [seq a j | j <- s] [seq b j | j <- s] = [seq (a j * b j)%R | j <- s].
Proof. by rewrite /mulv; elim: s => [|j s IH] //=; rewrite IH. Qed.

Lemma foldl_maxn_ge (s : seq nat) (x : nat) :
  x <= foldl maxn x s /\ all (fun y => y <= foldl maxn x s) s.
Proof.
elim: s x => [|y s IH] x /=; first by rewrite leqnn.
have [le_m ->] := IH (maxn x y).
by rewrite (leq_trans (leq_maxl x y) le_m) (leq_trans (leq_maxr x y) le_m).
Qed.

Lemma npmax_spec (s : seq nat) :
  0 < size s -> exists2 mx, npmax s = Ok mx & all (fun y => y <= mx) s.
Proof.
case: s => [|x s] //= _; exists (foldl maxn x s) => //.
by have [-> ->] := foldl_maxn_ge s x.
Qed.

Section Tables.

Variables (plist : seq Param) (B : seq (seq nat)) (X : matrix R).
Variables (m d n : nat).
Hypothesis size_plist : size plist = d.
Hypothesis shape_B : has_shape m d B.
Hypothesis shape_X : has_shape n d X.
Hypothesis m_gt0 : 0 < m.

(* the rows of the value table and of the derivative table of dimension k *)
Let vrow (k g : nat) : seq R :=
  [seq orthoPoly_value (nth no_param plist k) g (entry 0%R X j k) | j <- range n].
Let drow (k g : nat) : seq R :=
  [seq orthoPoly_derivative (nth no_param plist k) g (entry 0%R X j k) | j <- range n].

Lemma univariate_tables_spec (extra : nat) :
  exists2 pdp, univariate_tables plist B X d extra = Ok pdp &
    size pdp.1 = d /\ size pdp.2 = d /\
    forall k, k < d -> exists2 mx,
      (forall i, i < m -> entry 0 B i k <= mx) &
      nth [::] pdp.1 k = [seq vrow k g | g <- range (mx + extra).+1] /\
      nth [::] pdp.2 k = [seq drow k g | g <- range (mx + extra).+1].
Proof.
have [szB rowB] := has_shapeP shape_B.
have [szX rowX] := has_shapeP shape_X.
have allB : all (fun r => size r == d) B by case/andP: shape_B.
have allX : all (fun r => size r == d) X by case/andP: shape_X.
pose I (k : nat) (pdp : seq (matrix R) * seq (matrix R)) :=
  size pdp.1 = k /\ size pdp.2 = k /\
  forall k', k' < k -> exists2 mx,
    (forall i, i < m -> entry 0 B i k' <= mx) &
    nth [::] pdp.1 k' = [seq vrow k' g | g <- range (mx + extra).+1] /\
    nth [::] pdp.2 k' = [seq drow k' g | g <- range (mx + extra).+1].
have I0 : I 0 ([::], [::]) by [].
have step (k : nat) (pdp : seq (matrix R) * seq (matrix R)) : k < d -> I k pdp ->
    exists2 pdp',
      (prm <- getitem plist k ;;
       pts <- column X k ;;
       bcol <- column B k ;;
       mx <- npmax bcol ;;
       let v := _getOrthoPoly prm pts (Some (mx + extra)) in
       Ok (rcons pdp.1 v.1, rcons pdp.2 v.2)) = Ok pdp' & I k.+1 pdp'.
  move=> lt_k [sz1 [sz2 Hpdp]].
  rewrite (getitem_nth no_param) ?size_plist //=.
  rewrite (column_Ok 0%R allX lt_k) /= (column_Ok 0 allB lt_k) /=.
  have [|mx -> Hmx] /= := npmax_spec (s := [seq nth 0 r k | r <- B]).
    by rewrite size_map szB.
  eexists; first by [].
  split; first by rewrite size_rcons sz1.
  split; first by rewrite size_rcons sz2.
  move=> k'; rewrite ltnS leq_eqVlt => /orP [/eqP ->|lt_k'].
    exists mx.
      move=> i lt_i; move/all_nthP: Hmx => /(_ 0 i).
      by rewrite size_map szB (nth_map [::]) ?szB //; apply.
    rewrite !nth_rcons sz1 sz2 ltnn eqxx /vrow /drow.
    rewrite (map_range [::] _ X) szX /range /=.
    by split; congr cons; rewrite -?map_comp //; apply: eq_map => g;
       rewrite -map_comp.
  have [mx' Hmx' [eq1 eq2]] := Hpdp k' lt_k'.
  by exists mx' => //; rewrite !nth_rcons sz1 sz2 lt_k'.
exact: foldM_range I0 step.
Qed.

End Tables.

Section Assembly.

Variables (table : nat -> res (matrix R)) (F : nat -> nat -> nat -> R).
Variables (B : seq (seq nat)) (m d n : nat).
Hypothesis shape_B : has_shape m d B.
Hypothesis d_gt0 : 0 < d.
Hypothesis table_row : forall k i, k < d -> i < m ->
  exists2 T, table k = Ok T &
    getitem T (entry 0 B i k) = Ok [seq F k (entry 0 B i k) j | j <- range n].

(* row i of the result: the product over all dimensions *)
Let final_row (i : nat) : seq R :=
  [seq (\prod_(0 <= k < d) F k (entry 0 B i k) j)%R | j <- range n].

Lemma row_loop_spec (poly0 : matrix R) (i : nat) :
  size poly0 = m -> i < m ->
  exists2 st,
    foldM (fun (st : matrix R * seq R) k =>
             tbl <- table k ;;
             b <- getitem2 B i k ;;
             row <- getitem tbl b ;;
             polynomial <- setitem st.1 i (mulv row st.2) ;;
             temp <- getitem polynomial i ;;
             Ok (polynomial, temp))
          (poly0, nseq n 1%R) (range d) = Ok st &
    size st.1 = m /\
    (forall i', i' != i -> nth [::] st.1 i' = nth [::] poly0 i') /\
    nth [::] st.1 i = final_row i.
Proof.
move=> sz0 lt_i.
pose K (k : nat) (st : matrix R * seq R) :=
  size st.1 = m /\
  (forall i', i' != i -> nth [::] st.1 i' = nth [::] poly0 i') /\
  st.2 = [seq (\prod_(0 <= k' < k) F k' (entry 0 B i k') j)%R | j <- range n] /\
  (0 < k -> nth [::] st.1 i = st.2).
have K0 : K 0 (poly0, nseq n 1%R).
  split=> //; split=> //; split=> //=.
  rewrite -(map_range_const _ n); apply: eq_map => j.
  by rewrite big_geq.
have step (k : nat) (st : matrix R * seq R) : k < d -> K k st ->
    exists2 st',
      (tbl <- table k ;;
       b <- getitem2 B i k ;;
       row <- getitem tbl b ;;
       polynomial <- setitem st.1 i (mulv row st.2) ;;
       temp <- getitem polynomial i ;;
       Ok (polynomial, temp)) = Ok st' & K k.+1 st'.
  move=> lt_k [sz1 [Hother [Htemp _]]].
  have [T -> HT] /= := table_row lt_k lt_i.
  rewrite (getitem2_nth 0 shape_B lt_i lt_k) /= HT /=.
  have lt_i1 : i < size st.1 by rewrite sz1.
  rewrite (setitem_Ok _ lt_i1) /= (getitem_nth [::]) ?size_upd //=.
  eexists; first by [].
  rewrite /K /= size_upd // !nth_upd // eqxx; split=> //; split.
    by move=> i' /negPf ne_i'; rewrite nth_upd // ne_i' Hother ?ne_i'.
  split=> //; rewrite Htemp mulv_map; apply: eq_map => j.
  by rewrite big_nat_recr //= mulrC.
have [st -> [sz1 [Hother [Htemp Hrow]]]] := foldM_range K0 step.
by exists st => //; split=> //; split=> //; rewrite Hrow.
Qed.

Lemma assemble_rows_spec :
  exists2 P, assemble_rows table B m d n = Ok P &
    has_shape m n P /\
    forall i j, i < m -> j < n ->
      entry 0%R P i j = (\prod_(0 <= k < d) F k (entry 0 B i k) j)%R.
Proof.
pose O (i : nat) (poly : matrix R) :=
  size poly = m /\ forall i', i' < i -> nth [::] poly i' = final_row i'.
have O0 : O 0 (zeros m n) by split; rewrite ?size_nseq.
have step (i : nat) (poly : matrix R) : i < m -> O i poly ->
    exists2 poly',
      (st <- foldM (fun (st : matrix R * seq R) k =>
                      tbl <- table k ;;
                      b <- getitem2 B i k ;;
                      row <- getitem tbl b ;;
                      polynomial <- setitem st.1 i (mulv row st.2) ;;
                      temp <- getitem polynomial i ;;
                      Ok (polynomial, temp))
                   (poly, nseq n 1%R) (range d) ;;
       Ok st.1) = Ok poly' & O i.+1 poly'.
  move=> lt_i [sz Hrows].
  have [st -> [sz1 [Hother Hrow]]] /= := row_loop_spec sz lt_i.
  exists st.1 => //; split=> // i'; rewrite ltnS leq_eqVlt.
  case: (i' =P i) => [->|/eqP ne_i'] //= lt_i'.
  by rewrite Hother // Hrows.
have [P eqP [szP HP]] := foldM_range O0 step.
exists P; first by [].
split.
  apply: has_shape_nth => // i lt_i.
  by rewrite HP // /final_row size_map size_iota.
by move=> i j lt_i lt_j; rewrite /entry HP // /final_row nth_map_range.
Qed.

End Assembly.

(* --------------------------------------------------------------------- *)
(* getPolynomial and getPolynomialGradient                                *)
(* --------------------------------------------------------------------- *)

Lemma table_lookup (tbls : seq (matrix R)) (row : nat -> seq R) (k b mx : nat) :
  k < size tbls -> b <= mx ->
  nth [::] tbls k = [seq row g | g <- range mx.+1] ->
  exists2 T, getitem tbls k = Ok T & getitem T b = Ok (row b).
Proof.
move=> lt_k le_b eq_T; exists (nth [::] tbls k); first exact: getitem_nth.
rewrite eq_T (getitem_nth [::]) ?size_map ?size_iota ?ltnS //.
by rewrite nth_map_range.
Qed.

Lemma ncols_gt0 (A : Type) (M : matrix A) : 0 < ncols M -> 0 < size M.
Proof. by case: M. Qed.

(** C1. For a basis table of m rows and d >= 2 columns and an n x d array
    of points, getPolynomial returns an m x n array whose entry (i, j) is
    the product over all dimensions k of the univariate value of degree
    basis[i,k] of the k-th Parameter at the k-th coordinate of point j;
    row i of the result belongs to row i of the basis. *)
Theorem getPolynomial_tensor_product (h : heap) (self : Poly) (X : matrix R) (n : nat) :
  let plist := plists h (parameters self) in
  let B := Basis.elements (bases h (basis self)) in
  let m := nrows B in
  let d := ncols B in
  1 < d -> has_shape m d B -> size plist = d -> has_shape n d X ->
  exists2 P, getPolynomial h self X = Ok P &
    has_shape m n P /\
    forall i j, i < m -> j < n ->
      entry 0%R P i j =
      (\prod_(0 <= k < d)
         orthoPoly_value (nth no_param plist k) (entry 0 B i k) (entry 0%R X j k))%R.
Proof.
move=> plist B m d d_gt1 shB szp shX.
have d_gt0 : 0 < d by exact: ltnW.
have m_gt0 : 0 < m by exact: ncols_gt0.
have szX : nrows X = n by case/andP: shX => /eqP.
rewrite /getPolynomial -/plist -/B -/d -/m szX.
have /negPf -> : d != 1 by rewrite neq_ltn d_gt1 orbT.
have [pdp -> [sz1 [_ Hpdp]]] /= := univariate_tables_spec szp shB shX m_gt0 0.
apply: (assemble_rows_spec
          (F := fun k g j => orthoPoly_value (nth no_param plist k) g (entry 0%R X j k))
          shB d_gt0) => k i lt_k lt_i.
have [mx Hmx [eq1 _]] := Hpdp k lt_k.
have lt_k1 : k < size pdp.1 by rewrite sz1.
rewrite addn0 in eq1.
exact: table_lookup lt_k1 (Hmx i lt_i) eq1.
Qed.

(** C2. For a basis table of m rows and d >= 2 columns and an n x d array
    of points, getPolynomialGradient returns a list of exactly d arrays,
    each m x n; in the array of direction v the entry of basis row i at
    point j is the product over all dimensions k of the univariate value
    of degree basis[i,k], with the univariate derivative in its place for
    the dimension k = v. *)
Theorem getPolynomialGradient_directions (h : heap) (self : Poly) (X : matrix R) (n : nat) :
  let plist := plists h (parameters self) in
  let B := Basis.elements (bases h (basis self)) in
  let m := nrows B in
  let d := ncols B in
  1 < d -> has_shape m d B -> size plist = d -> has_shape n d X ->
  exists2 Rs, getPolynomialGradient h self X = Ok (Directions Rs) &
    size Rs = d /\
    forall v, v < d ->
      has_shape m n (nth [::] Rs v) /\
      forall i j, i < m -> j < n ->
        entry 0%R (nth [::] Rs v) i j =
        (\prod_(0 <= k < d)
           if k == v
           then orthoPoly_derivative (nth no_param plist k) (entry 0 B i k) (entry 0%R X j k)
           else orthoPoly_value (nth no_param plist k) (entry 0 B i k) (entry 0%R X j k))%R.
Proof.
move=> plist B m d d_gt1 shB szp shX.
have d_gt0 : 0 < d by exact: ltnW.
have m_gt0 : 0 < m by exact: ncols_gt0.
have szX : nrows X = n by case/andP: shX => /eqP.
rewrite /getPolynomialGradient -/plist -/B -/d -/m szX.
have /negPf -> : d != 1 by rewrite neq_ltn d_gt1 orbT.
have [pdp -> [sz1 [sz2 Hpdp]]] /= := univariate_tables_spec szp shB shX m_gt0 1.
pose G (v k g j : nat) : R :=
  if k == v then orthoPoly_derivative (nth no_param plist k) g (entry 0%R X j k)
  else orthoPoly_value (nth no_param plist k) g (entry 0%R X j k).
pose I (v : nat) (Rs : seq (matrix R)) :=
  size Rs = v /\
  forall v', v' < v ->
    has_shape m n (nth [::] Rs v') /\
    forall i j, i < m -> j < n ->
      entry 0%R (nth [::] Rs v') i j = (\prod_(0 <= k < d) G v' k (entry 0 B i k) j)%R.
have I0 : I 0 [::] by [].
have step (v : nat) (Rs : seq (matrix R)) : v < d -> I v Rs ->
    exists2 Rs',
      (polynomialgradient <-
         assemble_rows (fun k => if k == v then getitem pdp.2 k else getitem pdp.1 k)
                       B m d n ;;
       Ok (rcons Rs polynomialgradient)) = Ok Rs' & I v.+1 Rs'.
  move=> lt_v [szRs HRs].
  have tr (k i : nat) : k < d -> i < m ->
      exists2 T, (if k == v then getitem pdp.2 k else getitem pdp.1 k) = Ok T &
        getitem T (entry 0 B i k) = Ok [seq G v k (entry 0 B i k) j | j <- range n].
    move=> lt_k lt_i; have [mx Hmx [eq1 eq2]] := Hpdp k lt_k.
    have le_b : entry 0 B i k <= mx + 1 by rewrite (leq_trans (Hmx i lt_i)) ?leq_addr.
    have lt_k1 : k < size pdp.1 by rewrite sz1.
    have lt_k2 : k < size pdp.2 by rewrite sz2.
    rewrite /G; case: (k == v).
      exact: table_lookup lt_k2 le_b eq2.
    exact: table_lookup lt_k1 le_b eq1.
  have [P -> [shP HP]] /= := assemble_rows_spec shB d_gt0 tr.
  eexists; first by [].
  split; first by rewrite size_rcons szRs.
  move=> v'; rewrite ltnS leq_eqVlt nth_rcons szRs.
  case: (v' =P v) => [->|_] /=; first by rewrite ltnn.
  by move=> lt_v'; rewrite lt_v'; apply: HRs.
have [Rs -> [szRs HRs]] /= := foldM_range I0 step.
by exists Rs.
Qed.

Lemma flatten_column (A : Type) (x0 : A) (n : nat) (M : matrix A) :
  has_shape n 1 M -> flatten M = [seq nth x0 r 0 | r <- M].
Proof.
by case/andP=> _; elim: M => [|[|x [|y r]] M IH] //= /IH ->.
Qed.

(** C7. When the basis has one column (d = 1), getPolynomialGradient takes
    the shortcut and returns the table of the plain univariate values of
    the only Parameter (one row per degree up to the Parameter's order, one
    entry per point), not a list of derivative arrays. *)
Theorem getPolynomialGradient_univariate (h : heap) (self : Poly) (X : matrix R) (n : nat) :
  let plist := plists h (parameters self) in
  let B := Basis.elements (bases h (basis self)) in
  let prm := nth no_param plist 0 in
  ncols B = 1 -> size plist = 1 -> has_shape n 1 X ->
  exists2 V, getPolynomialGradient h self X = Ok (Univariate V) &
    has_shape (order prm).+1 n V /\
    forall g j, g <= order prm -> j < n ->
      entry 0%R V g j = orthoPoly_value prm g (entry 0%R X j 0).
Proof.
move=> plist B prm d1 szp shX.
have szX : size X = n by case/andP: shX => /eqP.
rewrite /getPolynomialGradient -/plist -/B d1 eqxx.
rewrite (getitem_nth no_param) ?szp //= -/prm.
exists [seq [seq orthoPoly_value prm g x | x <- flatten X]
           | g <- range (order prm).+1]; first by [].
rewrite (flatten_column 0%R shX).
split.
  apply: has_shape_nth; first by rewrite size_map size_iota.
  move=> g lt_g; rewrite (nth_map 0) ?size_iota //.
  by rewrite !size_map.
move=> g j le_g lt_j; rewrite /entry nth_map_range ?ltnS //.
by rewrite -map_comp (nth_map [::]) ?szX.
Qed.

(* --------------------------------------------------------------------- *)
(* getTensorQuadratureRule                                                *)
(* --------------------------------------------------------------------- *)

Lemma foldM_rcons (A B : Type) (f : B -> A -> res B) (b : B) (s : seq A) (x : A) :
  foldM f b (rcons s x) = (b' <- foldM f b s ;; f b' x).
Proof.
elim: s b => [|y s IH] b /=; first by case: (f b x).
by case: (f b y) => //= b'; rewrite IH.
Qed.

Lemma range_rcons (n : nat) : range n.+1 = rcons (range n) n.
Proof. by rewrite /range -addn1 iotaD add0n /= cats1. Qed.

Section Allpairs.

Variables A B C : Type.

Lemma allpairs_consl (f : A -> B -> C) (x : A) (s : seq A) (t : seq B) :
  [seq f a b | a <- x :: s, b <- t] = [seq f x b | b <- t] ++ [seq f a b | a <- s, b <- t].
Proof. by []. Qed.

Lemma zip_allpairs (D : Type) (f : A -> B -> C) (g : A -> B -> D) (s : seq A) (t : seq B) :
  zip [seq f a b | a <- s, b <- t] [seq g a b | a <- s, b <- t] =
  [seq (f a b, g a b) | a <- s, b <- t].
Proof.
elim: s => [|x s IH] //; rewrite !allpairs_consl zip_cat ?size_map // IH.
by rewrite zip_map.
Qed.

Lemma map_of_allpairs (D : Type) (k : C -> D) (f : A -> B -> C) (s : seq A) (t : seq B) :
  [seq k c | c <- [seq f a b | a <- s, b <- t]] = [seq k (f a b) | a <- s, b <- t].
Proof.
elim: s => [|x s IH] //; rewrite !allpairs_consl map_cat IH.
by rewrite -map_comp.
Qed.

Lemma nth_of_allpairs (a0 : A) (b0 : B) (c0 : C) (f : A -> B -> C)
    (s : seq A) (t : seq B) (i j : nat) :
  i < size s -> j < size t ->
  nth c0 [seq f a b | a <- s, b <- t] (i * size t + j) = f (nth a0 s i) (nth b0 t j).
Proof.
elim: s i => [|x s IH] [|i] //= lt_i lt_j; rewrite nth_cat size_map.
  by rewrite mul0n add0n lt_j (nth_map b0).
by rewrite mulSn -addnA ltnNge leq_addr /= addKn IH.
Qed.

Lemma map_const (c : C) (t : seq B) : [seq c | _ <- t] = nseq (size t) c.
Proof. by elim: t => [|b t IH] //=; rewrite IH. Qed.

End Allpairs.

Lemma kron1_one_r (ra : seq R) : kron1 ra [:: 1%R] = ra.
Proof.
by rewrite /kron1; elim: ra => [|x ra IH] //; rewrite allpairs_consl IH /= mulr1.
Qed.

Lemma kron2_ones_r (pp : matrix R) (lp : seq R) :
  kron2 pp (ones (size lp) 1) = [seq r | r <- pp, _ <- lp].
Proof.
rewrite /kron2 /ones; elim: pp => [|r pp IH] //; rewrite !allpairs_consl IH.
by rewrite map_nseq kron1_one_r map_const.
Qed.

Lemma kron2_ones_l (pp : matrix R) (lp : seq R) :
  kron2 (ones (size pp) 1) [seq [:: x] | x <- lp] = [seq [:: x] | _ <- pp, x <- lp].
Proof.
rewrite /kron2 /ones; elim: pp => [|r pp IH] //=; rewrite IH.
congr (_ ++ _); rewrite -map_comp; apply: eq_map => x /=.
by rewrite /kron1 /= mul1r.
Qed.

Section TensorLoop.

Variables (plist : seq Param) (orders : seq nat).

Notation rule := (local_rule plist orders).

Lemma tensor_step_eq (st : matrix R * seq R) (u : nat) (prm : Param) (o : nat) :
  getitem plist u = Ok prm -> getitem orders u = Ok o ->
  tensor_step plist orders st u =
  Ok ([seq rcons r x | r <- st.1, x <- (rule u).1], kron1 st.2 (rule u).2).
Proof.
move=> Hp Ho; rewrite /tensor_step Hp Ho /=.
have [_ ->] := getitem_Ok no_param Hp; have [_ ->] := getitem_Ok 0 Ho.
rewrite -/(rule u) kron2_ones_r kron2_ones_l /concatenate1 !size_allpairs eqxx.
rewrite zip_allpairs map_of_allpairs /=.
by congr (Ok (_, _)); apply: eq_allpairs => r x; rewrite cats1.
Qed.

Lemma tensor_points_S (u : nat) :
  tensor_points plist orders u.+1 =
  [seq rcons r x | r <- tensor_points plist orders u, x <- (rule u).1].
Proof. by rewrite /tensor_points range_rcons foldl_rcons. Qed.

Lemma tensor_weights_S (u : nat) :
  tensor_weights plist orders u.+1 = kron1 (tensor_weights plist orders u) (rule u).2.
Proof. by rewrite /tensor_weights range_rcons foldl_rcons. Qed.

(* The loop returns when the Parameters and the orders reach to u. *)
Lemma tensor_loop_total (u : nat) :
  u <= size plist -> u <= size orders ->
  tensor_loop plist orders u =
  Ok (tensor_points plist orders u, tensor_weights plist orders u).
Proof.
elim: u => [|u IH] // lt_p lt_o.
rewrite /tensor_loop range_rcons foldM_rcons -/(tensor_loop plist orders u).
rewrite (IH (ltnW lt_p) (ltnW lt_o)) bind_Ok.
rewrite (tensor_step_eq _ (getitem_nth no_param lt_p) (getitem_nth 0 lt_o)).
by rewrite tensor_points_S tensor_weights_S.
Qed.

(* Whenever the loop returns, it returns the two folds. *)
Lemma tensor_loop_Ok (u : nat) (st : matrix R * seq R) :
  tensor_loop plist orders u = Ok st ->
  st = (tensor_points plist orders u, tensor_weights plist orders u).
Proof.
elim: u st => [|u IH] st; first by case.
rewrite /tensor_loop range_rcons foldM_rcons -/(tensor_loop plist orders u).
case Hl: (tensor_loop plist orders u) => [st0|e]; last by [].
rewrite (IH _ Hl) bind_Ok.
case Hp: (getitem plist u) => [prm|e]; last by rewrite /tensor_step Hp.
case Ho: (getitem orders u) => [o|e]; last by rewrite /tensor_step Hp bind_Ok Ho.
by rewrite (tensor_step_eq _ Hp Ho) tensor_points_S tensor_weights_S => -[<-].
Qed.

End TensorLoop.

Section TensorGrid.

Variables (plist : seq Param) (orders : seq nat).

Notation rule := (local_rule plist orders).
Notation points_after := (tensor_points plist orders).
Notation weights_after := (tensor_weights plist orders).

Lemma size_tensor_weights (u : nat) :
  size (weights_after u) = \prod_(0 <= k < u) size (rule k).2.
Proof.
elim: u => [|u IH]; first by rewrite big_geq.
by rewrite tensor_weights_S size_allpairs IH big_nat_recr.
Qed.

Lemma size_tensor_points (u : nat) :
  size (points_after u) = \prod_(0 <= k < u) size (rule k).1.
Proof.
elim: u => [|u IH]; first by rewrite big_geq.
by rewrite tensor_points_S size_allpairs IH big_nat_recr.
Qed.

(* One pass of the loop: row a * N + b of the new pp is row a of the old
   pp followed by point b of the 1-D rule of N points. *)
Lemma tensor_points_step (u a b : nat) :
  a < size (points_after u) -> b < size (rule u).1 ->
  nth [::] (points_after u.+1) (a * size (rule u).1 + b) =
  rcons (nth [::] (points_after u) a) (nth 0%R (rule u).1 b).
Proof.
by move=> lt_a lt_b; rewrite tensor_points_S (nth_of_allpairs [::] 0%R).
Qed.

Lemma tensor_points_row (u r : nat) :
  r < size (points_after u.+1) ->
  nth [::] (points_after u.+1) r =
  rcons (nth [::] (points_after u) (r %/ size (rule u).1))
        (nth 0%R (rule u).1 (r %% size (rule u).1)).
Proof.
rewrite tensor_points_S size_allpairs => lt_r.
have N_gt0 : 0 < size (rule u).1.
  by case: (size (rule u).1) lt_r => //; rewrite muln0.
rewrite {1}(divn_eq r (size (rule u).1)) (nth_of_allpairs [::] 0%R) //.
  by rewrite ltn_divLR.
by rewrite ltn_pmod.
Qed.

Lemma tensor_points_width (u r : nat) :
  r < size (points_after u) -> size (nth [::] (points_after u) r) = u.+1.
Proof.
elim: u r => [|u IH] r; first by case: r.
move=> lt_r; rewrite (tensor_points_row lt_r) size_rcons IH //.
move: lt_r; rewrite tensor_points_S size_allpairs.
by case: (size (rule u).1) => [|N]; rewrite ?muln0 // ltn_divLR.
Qed.

(* The closed form: column k of the grid reads the k-th 1-D rule at the
   digit of the row number r whose weight is the product of the point
   counts of the later dimensions. *)
Lemma tensor_points_entry (u r k : nat) :
  r < size (points_after u) -> k < u ->
  nth 0%R (nth [::] (points_after u) r) k.+1 =
  nth 0%R (rule k).1
      ((r %/ \prod_(k.+1 <= l < u) size (rule l).1) %% size (rule k).1).
Proof.
elim: u r => [|u IH] r // lt_r; rewrite ltnS => le_k.
have lt_q : r %/ size (rule u).1 < size (points_after u).
  move: lt_r; rewrite tensor_points_S size_allpairs.
  by case: (size (rule u).1) => [|N]; rewrite ?muln0 // ltn_divLR.
rewrite (tensor_points_row lt_r) nth_rcons tensor_points_width // ltnS.
move: le_k; rewrite leq_eqVlt => /orP [/eqP ->|lt_k].
  by rewrite ltnn eqxx big_geq // divn1.
by rewrite lt_k IH // big_nat_recr //= mulnC divnMA.
Qed.

Lemma sum_kron1 (a b : seq R) :
  (\sum_(w <- kron1 a b) w = (\sum_(x <- a) x) * (\sum_(y <- b) y))%R.
Proof.
rewrite /kron1; elim: a => [|x a IH]; first by rewrite !big_nil mul0r.
by rewrite allpairs_consl big_cat IH big_map big_cons mulrDl -mulr_sumr.
Qed.

Lemma sum_tensor_weights (u : nat) :
  (\sum_(w <- weights_after u) w = \prod_(0 <= k < u) \sum_(w <- (rule k).2) w)%R.
Proof.
elim: u => [|u IH]; first by rewrite big_geq // big_seq1.
by rewrite tensor_weights_S sum_kron1 IH big_nat_recr.
Qed.

End TensorGrid.

(** C3. For d >= 1 dimensions and a list of d orders, whose 1-D rules have
    as many weights as points, the tensor-grid builder returns points and
    weights such that: the weights are the iterated Kronecker product of
    the 1-D weight vectors, and their count is the product of the 1-D
    point counts; the points have one row per weight and one column per
    dimension; column k reads the k-th 1-D rule at the digit of the row
    number whose weight is the product of the point counts of the later
    dimensions (later columns vary faster); and every pass u of the loop
    turns row a of pp into the consecutive rows a*N .. a*N + N - 1, each
    with one point of rule u appended (the new column varies fastest). *)
Theorem getTensorQuadratureRule_kron (h : heap) (self : Poly)
    (orders_arg : option (seq nat)) :
  let plist := plists h (parameters self) in
  let d := dimensions self in
  let os := if orders_arg is Some o then o else orders self in
  let rule := local_rule plist os in
  0 < d -> size plist = d -> size os = d ->
  (forall u, u < d -> size (rule u).1 = size (rule u).2) ->
  exists points weights,
    getTensorQuadratureRule h self orders_arg = Ok (points, weights) /\
    weights = foldl (fun ww u => kron1 ww (rule u).2) [:: 1%R] (range d) /\
    size weights = \prod_(0 <= u < d) size (rule u).1 /\
    has_shape (size weights) d points /\
    (forall r k, r < size weights -> k < d ->
       entry 0%R points r k =
       nth 0%R (rule k).1
           ((r %/ \prod_(k.+1 <= l < d) size (rule l).1) %% size (rule k).1)) /\
    (forall u, u < d -> exists pp ww pp' ww',
       [/\ tensor_loop plist os u = Ok (pp, ww),
           tensor_loop plist os u.+1 = Ok (pp', ww'),
           ww' = kron1 ww (rule u).2,
           size pp' = size pp * size (rule u).1 &
           forall a b, a < size pp -> b < size (rule u).1 ->
             nth [::] pp' (a * size (rule u).1 + b) =
             rcons (nth [::] pp a) (nth 0%R (rule u).1 b)]).
Proof.
move=> plist d os rule d_gt0 szp szo Hrule.
have eq_sz : size (tensor_weights plist os d) = size (tensor_points plist os d).
  rewrite size_tensor_weights size_tensor_points.
  by apply: eq_big_nat => u /andP [_ lt_u]; rewrite -Hrule.
exists [seq drop 1 r | r <- tensor_points plist os d], (tensor_weights plist os d).
split.
  rewrite /getTensorQuadratureRule -/plist -/d -/os.
  by rewrite tensor_loop_total ?szp ?szo //= -/d -[d == 0]negbK -lt0n d_gt0.
split=> //; split; first by rewrite eq_sz size_tensor_points.
split.
  apply: has_shape_nth; first by rewrite size_map.
  move=> r; rewrite eq_sz => lt_r.
  by rewrite (nth_map [::]) // size_drop tensor_points_width // subn1.
split.
  move=> r k; rewrite eq_sz => lt_r lt_k.
  by rewrite /entry (nth_map [::]) // nth_drop add1n tensor_points_entry.
move=> u lt_u.
exists (tensor_points plist os u), (tensor_weights plist os u),
       (tensor_points plist os u.+1), (tensor_weights plist os u.+1).
split.
- by rewrite tensor_loop_total // ?szp ?szo ltnW.
- by rewrite tensor_loop_total // ?szp ?szo.
- exact: tensor_weights_S.
- by rewrite tensor_points_S size_allpairs.
- by move=> a b; apply: tensor_points_step.
Qed.

(** C4. If every 1-D weight vector sums to 1, the weight vector returned
    by getTensorQuadratureRule sums to 1: the builder returns for every
    dimension count d >= 1 (Parameters and orders reaching to d), and any
    weights it returns have sum 1. *)
Theorem getTensorQuadratureRule_weights_sum (h : heap) (self : Poly)
    (orders_arg : option (seq nat)) :
  let plist := plists h (parameters self) in
  let d := dimensions self in
  let os := if orders_arg is Some o then o else orders self in
  let rule := local_rule plist os in
  (forall u, u < d -> (\sum_(w <- (rule u).2) w = 1)%R) ->
  (0 < d -> d <= size plist -> d <= size os ->
   exists pw, getTensorQuadratureRule h self orders_arg = Ok pw) /\
  (forall points weights,
     getTensorQuadratureRule h self orders_arg = Ok (points, weights) ->
     (\sum_(w <- weights) w = 1)%R).
Proof.
move=> plist d os rule Hsum; rewrite /getTensorQuadratureRule -/plist -/d -/os.
split.
  move=> d_gt0 le_p le_o; rewrite tensor_loop_total //= -/d.
  by rewrite -[d == 0]negbK -lt0n d_gt0 /=; eexists.
move=> points weights.
case Hloop: (tensor_loop plist os d) => [st|] //=.
rewrite (tensor_loop_Ok Hloop) /=; case: (d == 0) => // -[_ <-].
rewrite sum_tensor_weights big_nat big1 // => u /andP [_ lt_u].
Qed.

(* --------------------------------------------------------------------- *)
(* getQuadratureRule                                                      *)
(* --------------------------------------------------------------------- *)



Section QuasiRandom.

Variables (plist : seq Param) (d N : nat).
Hypothesis size_plist : size plist = d.
Hypothesis samples_size : forall i g, i < d ->
  size (getSamples (nth no_param plist i) N g).1 = N.



End QuasiRandom.



(** C9 (as amended). For an option string that in lower case is neither
    'qmc' nor 'tensor grid', getQuadratureRule raises nothing: it falls
    through both tests and returns None, leaving the generator as it was. *)
Theorem getQuadratureRule_unrecognised (h : heap) (self : Poly) (s : string) (g : rng) :
  str_lower s <> "qmc"%string -> str_lower s <> "tensor grid"%string ->
  getQuadratureRule h self (Some s) g = Ok (None, g).
Proof.
move=> /String.eqb_neq ne_qmc /String.eqb_neq ne_tg.
by rewrite /getQuadratureRule ne_qmc ne_tg.
Qed.

(* --------------------------------------------------------------------- *)
(* Construction, clone and the Fit Evaluator                              *)
(* --------------------------------------------------------------------- *)

Lemma foldM_cons (A B : Type) (f : B -> A -> res B) (b : B) (x : A) (s : seq A) :
  foldM f b (x :: s) = (b' <- f b x ;; foldM f b' s).
Proof. by []. Qed.





Section Unfitted.

Variables (h : heap) (self : Poly).
Hypothesis unset : coefficients self = None.





End Unfitted.





End PolyProperties.

(* --------------------------------------------------------------------- *)
(* The theorems at the concrete core object                               *)
(* --------------------------------------------------------------------- *)

Lemma getPolynomial_tensor_product_witness :
  exists2 P, getPolynomial Example.heap1 Example.poly0 [:: [:: 0%R; 0%R]] = Ok P &
    has_shape 6 1 P.
Proof.
have [| | | |P eqP [shP _]] :=
  @getPolynomial_tensor_product _ _ Example.heap1 Example.poly0 [:: [:: 0%R; 0%R]] 1.
- reflexivity.
- reflexivity.
- reflexivity.
- reflexivity.
- by exists P; [exact: eqP | exact: shP].
Defined.

Lemma getPolynomialGradient_directions_witness :
  exists2 Rs,
    getPolynomialGradient Example.heap1 Example.poly0 [:: [:: 0%R; 1%R]] =
    Ok (Directions Rs) & size Rs = 2.
Proof.
have [| | | |Rs eqRs [szRs _]] :=
  @getPolynomialGradient_directions _ _ Example.heap1 Example.poly0 [:: [:: 0%R; 1%R]] 1.
- reflexivity.
- reflexivity.
- reflexivity.
- reflexivity.
- by exists Rs; [exact: eqRs | exact: szRs].
Defined.

Lemma getPolynomialGradient_univariate_witness :
  exists2 V,
    getPolynomialGradient Example.heap2 Example.poly1 [:: [:: 0%R]; [:: 1%R]] =
    Ok (Univariate V) & has_shape 3 2 V.
Proof.
have [| | |V eqV [shV _]] :=
  @getPolynomialGradient_univariate _ _ Example.heap2 Example.poly1
     [:: [:: 0%R]; [:: 1%R]] 2.
- reflexivity.
- reflexivity.
- reflexivity.
- by exists V; [exact: eqV | exact: shV].
Defined.

Lemma scaleInputs_columns_witness :
  exists2 y, scaleInputs Example.heap1 Example.poly0 [:: [:: (-1)%R; 1%R]] = Ok y &
    has_shape 1 2 y /\ entry 0%R y 0 0 = (-1)%R /\ entry 0%R y 0 1 = 1%R.
Proof.
have [| |y eqy [shy Hy]] :=
  @scaleInputs_columns _ _ Example.heap1 Example.poly0 [:: [:: (-1)%R; 1%R]] 1.
- reflexivity.
- reflexivity.
- have ne : lower Example.uniform2 != upper Example.uniform2 by [].
  have [HU0 _] := Hy 0 0 Example.uniform2 (erefl true) (erefl true) (erefl _).
  have [HU1 _] := Hy 1 0 Example.uniform2 (erefl true) (erefl true) (erefl _).
  have [_ [Hlo _]] := HU0 (erefl _).
  have [_ [_ Hup]] := HU1 (erefl _).
  exists y; first exact: eqy.
  split; first exact: shy.
  split; first exact: (Hlo ne (erefl _)).
  exact: (Hup ne (erefl _)).
Defined.

Lemma example_rule_sizes (u : nat) :
  u < 2 ->
  size (local_rule [:: Example.uniform2; Example.uniform2] [:: 1; 2] u).1 =
  size (local_rule [:: Example.uniform2; Example.uniform2] [:: 1; 2] u).2.
Proof. by case: u => [|[|u]]. Qed.

Lemma example_rule_sum (u : nat) :
  u < 2 ->
  (\sum_(w <- (local_rule [:: Example.uniform2; Example.uniform2] [:: 1; 2] u).2) w
   = 1)%R.
Proof.
by case: u => [|[|u]] // _; rewrite /local_rule /= !big_cons big_nil;
   apply/eqP; vm_compute.
Qed.

Lemma getTensorQuadratureRule_kron_witness :
  exists points weights,
    getTensorQuadratureRule Example.heap1 Example.poly0 (Some [:: 1; 2]) =
    Ok (points, weights) /\ size weights = 6 /\ has_shape 6 2 points.
Proof.
have [| | | |points [weights [eq_r [_ [szw [shp _]]]]]] :=
  @getTensorQuadratureRule_kron _ _ Example.heap1 Example.poly0 (Some [:: 1; 2]).
- reflexivity.
- reflexivity.
- reflexivity.
- exact: example_rule_sizes.
- exists points, weights; split; first exact: eq_r.
  have sz6 : size weights = 6.
    by rewrite szw /= unlock.
  by split; [exact: sz6 | rewrite -sz6; exact: shp].
Defined.

Lemma getTensorQuadratureRule_weights_sum_witness :
  exists points weights,
    getTensorQuadratureRule Example.heap1 Example.poly0 (Some [:: 1; 2]) =
    Ok (points, weights) /\ (\sum_(w <- weights) w = 1)%R.
Proof.
have [|Hret Hsum] :=
  @getTensorQuadratureRule_weights_sum _ _ Example.heap1 Example.poly0 (Some [:: 1; 2]).
- exact: example_rule_sum.
- have [[points weights] eq_r] := Hret (erefl true) (erefl true) (erefl true).
  by exists points, weights; split; [exact: eq_r | exact: Hsum eq_r].
Defined.




Lemma example_option_lower :
  str_lower "Sparse Grid" <> "qmc"%string /\
  str_lower "Sparse Grid" <> "tensor grid"%string.
Proof. by split; apply/String.eqb_neq. Qed.

Lemma getQuadratureRule_unrecognised_witness :
  getQuadratureRule Example.heap1 Example.poly0 (Some "Sparse Grid"%string) 7 =
  Ok (None, 7).
Proof.
exact: (@getQuadratureRule_unrecognised _ _ Example.heap1 Example.poly0 _ 7
          (proj1 example_option_lower) (proj2 example_option_lower)).
Defined.

(** C9, the claim as stated fails: with the option 'Sparse Grid' the call
    returns None and raises no error. *)
Lemma getQuadratureRule_no_error :
  getQuadratureRule Example.heap1 Example.poly0 (Some "Sparse Grid"%string) 7 =
    Ok (None, 7) /\
  forall e, getQuadratureRule Example.heap1 Example.poly0
              (Some "Sparse Grid"%string) 7 <> Err e.
Proof.
have eq_r : getQuadratureRule Example.heap1 Example.poly0
              (Some "Sparse Grid"%string) 7 = Ok (None, 7).
  reflexivity.
by split=> [|e]; rewrite eq_r.
Qed.


(* ===================================================================== *)
(* Further properties of the class                                        *)
(* ===================================================================== *)

Section MoreProperties.

Variable R : numFieldType.
Variable rng : Type.

Local Notation Param := (Param R rng).
Local Notation heap := (heap R rng).
Local Notation Poly := (Poly R).
Local Notation gradient := (gradient R).
Local Notation no_param := (no_param R rng).
Local Notation zeros := (zeros R).
Local Notation ones := (ones R).

(* --------------------------------------------------------------------- *)
(* The choice of the rule in getQuadratureRule                            *)
(* --------------------------------------------------------------------- *)

(** X1. Without an option, getQuadratureRule is the 'qmc' rule for more
    than 8 dimensions and the 'tensor grid' rule for fewer than 8; for
    exactly 8 dimensions neither default is chosen and the call raises
    AttributeError (the lower() of None). *)
Theorem getQuadratureRule_default (h : heap) (self : Poly) (g : rng) :
  [/\ 8 < dimensions self ->
        getQuadratureRule h self None g = getQuadratureRule h self (Some "qmc"%string) g,
      dimensions self < 8 ->
        getQuadratureRule h self None g =
        getQuadratureRule h self (Some "tensor grid"%string) g &
      dimensions self = 8 -> getQuadratureRule h self None g = Err AttributeError].
Proof.
rewrite /getQuadratureRule; split.
- by move=> ->.
- by move=> lt8; rewrite ltnNge (ltnW lt8) /= lt8.
- by move=> ->.
Qed.

(** X2. When the tensor-grid rule is selected by name (in any letter
    case), getQuadratureRule asks Parameter u for a 1-D rule of
    2 * o_u + 1 points, o_u being the Basis's order of dimension u, returns
    the tensor grid of these rules (as many weights as the product of the
    point counts, one point row per weight, one column per dimension), and
    leaves the random generator as it was. *)
Theorem getQuadratureRule_tensor_grid (h : heap) (self : Poly) (s : string) (g : rng) :
  let plist := plists h (parameters self) in
  let d := dimensions self in
  let os := Basis.orders (bases h (basis self)) in
  let rule u := _getLocalQuadrature (nth no_param plist u) (2 * nth 0 os u + 1) in
  str_lower s = "tensor grid"%string ->
  0 < d -> size plist = d -> size os = d ->
  (forall u, u < d -> size (rule u).1 = size (rule u).2) ->
  exists points weights,
    [/\ getQuadratureRule h self (Some s) g = Ok (Some (points, weights), g),
        size weights = \prod_(0 <= u < d) size (rule u).1 &
        has_shape (size weights) d points].
Proof.
move=> plist d os rule lower_s d_gt0 szp szo Hrule.
pose os2 := [seq 2 * i | i <- os].
have szo2 : size os2 = d by rewrite size_map.
have ruleE (u : nat) : u < d -> local_rule plist os2 u = rule u.
  by move=> lt_u; rewrite /local_rule /os2 (nth_map 0) ?szo.
have eq_sz : size (tensor_weights plist os2 d) = size (tensor_points plist os2 d).
  rewrite size_tensor_weights size_tensor_points.
  by apply: eq_big_nat => u /andP [_ lt_u]; rewrite ruleE // Hrule.
exists [seq drop 1 r | r <- tensor_points plist os2 d], (tensor_weights plist os2 d).
split.
- rewrite /getQuadratureRule lower_s /= /getTensorQuadratureRule -/plist -/d -/os -/os2.
  rewrite tensor_loop_total ?szp ?szo2 // bind_Ok.
  by rewrite -[d == 0]negbK -lt0n d_gt0.
- rewrite eq_sz size_tensor_points.
  by apply: eq_big_nat => u /andP [_ lt_u]; rewrite ruleE.
- apply: has_shape_nth; first by rewrite size_map.
  move=> r; rewrite eq_sz => lt_r.
  by rewrite (nth_map [::]) // size_drop tensor_points_width // subn1.
Qed.

(* --------------------------------------------------------------------- *)
(* scaleInputs on parameters that are neither Uniform nor Beta            *)
(* --------------------------------------------------------------------- *)

Lemma foldM_same (B : Type) (f : B -> nat -> res B) (n : nat) (b : B) :
  (forall k, k < n -> f b k = Ok b) -> foldM f b (range n) = Ok b.
Proof.
move=> Hf; pose I (k : nat) (b' : B) := b' = b.
have step (k : nat) (b' : B) : k < n -> I k b' -> exists2 b'', f b' k = Ok b'' & I k.+1 b''.
  by move=> lt_k ->; exists b => //; apply: Hf.
by have [b' -> ->] := foldM_range (erefl : I 0 b) step.
Qed.

(** X3. When no Parameter is of kind Uniform or Beta, scaleInputs returns
    its input as it is, whatever the shape of the input: no entry is read
    or written. *)
Theorem scaleInputs_unscaled (h : heap) (self : Poly) (x : matrix R) :
  dimensions self <= size (plists h (parameters self)) ->
  all (@unscaled R rng) (plists h (parameters self)) ->
  scaleInputs h self x = Ok x.
Proof.
move=> le_d /(all_nthP no_param) Hall; rewrite /scaleInputs.
apply: foldM_same => i lt_i; apply: foldM_same => j _.
have lt_i' : i < size (plists h (parameters self)) by exact: leq_trans lt_i le_d.
rewrite /scale_entry (getitem_nth no_param lt_i') bind_Ok.
by have /andP [/negPf -> /negPf ->] := Hall i lt_i'.
Qed.

(* --------------------------------------------------------------------- *)
(* getPolynomial on the univariate path                                   *)
(* --------------------------------------------------------------------- *)

Lemma foldl_maxn_in (s : seq nat) (x : nat) : foldl maxn x s \in x :: s.
Proof.
elim: s x => [|y s IH] x /=; first by rewrite mem_head.
have := IH (maxn x y); rewrite !in_cons.
by case: (leqP x y) => _ /orP [/eqP ->|->]; rewrite ?eqxx ?orbT.
Qed.

(** X4. On a basis of one column (d = 1), getPolynomial returns the table
    of the univariate values by degree: mx + 1 rows, mx being the largest
    degree of the basis, row g holding the values of degree g at the n
    points - one row per degree, not one row per basis term. *)
Theorem getPolynomial_univariate (h : heap) (self : Poly) (X : matrix R) (n : nat) :
  let plist := plists h (parameters self) in
  let B := Basis.elements (bases h (basis self)) in
  let prm := nth no_param plist 0 in
  has_shape (nrows B) 1 B -> 0 < nrows B -> 0 < size plist -> has_shape n 1 X ->
  exists mx P,
    [/\ getPolynomial h self X = Ok P,
        (forall i, i < nrows B -> entry 0 B i 0 <= mx) /\
        (exists2 i, i < nrows B & entry 0 B i 0 = mx),
        has_shape mx.+1 n P &
        forall g j, g <= mx -> j < n ->
          entry 0%R P g j = orthoPoly_value prm g (entry 0%R X j 0)].
Proof.
move=> plist B prm shB m_gt0 p_gt0 shX.
have szX : size X = n by case/andP: shX => /eqP.
have d1 : ncols B = 1.
  by case/andP: shB => _; rewrite /ncols /nrows; case: (B) m_gt0 => [|r B'] //= _ /andP [/eqP].
have colB : flatten B = [seq nth 0 r 0 | r <- B] by exact: flatten_column shB.
have [|mx eq_mx Hmx] := @npmax_spec (flatten B); first by rewrite colB size_map.
exists mx, [seq [seq orthoPoly_value prm g x | x <- flatten X] | g <- range mx.+1].
split.
- rewrite /getPolynomial -/plist -/B d1 eqxx (getitem_nth no_param p_gt0) bind_Ok.
  by rewrite eq_mx bind_Ok.
- split.
    move=> i lt_i; move/all_nthP: Hmx => /(_ 0 i).
    by rewrite colB size_map (nth_map [::]) //; apply.
  have: mx \in flatten B.
    move: eq_mx; rewrite /npmax; case: (flatten B) => [|y s] // [<-].
    exact: foldl_maxn_in.
  rewrite colB => /(nthP 0) [i]; rewrite size_map => lt_i.
  by rewrite (nth_map [::]) // => <-; exists i.
- rewrite (flatten_column 0%R shX); apply: has_shape_nth.
    by rewrite size_map size_iota.
  by move=> g lt_g; rewrite (nth_map 0) ?size_iota // !size_map.
- move=> g j le_g lt_j; rewrite (flatten_column 0%R shX) /entry nth_map_range ?ltnS //.
  by rewrite -map_comp (nth_map [::]) ?szX.
Qed.

(* --------------------------------------------------------------------- *)
(* The setters, and clone as a working copy                               *)
(* --------------------------------------------------------------------- *)

Lemma getitem_upd_same (A : Type) (s : seq A) (i : nat) (v : A) :
  i < size s -> getitem (take i s ++ v :: drop i.+1 s) i = Ok v.
Proof.
by move=> lt_i; rewrite (getitem_nth v) ?size_upd // nth_upd // eqxx.
Qed.

Lemma getitem_upd_other (A : Type) (s : seq A) (i k : nat) (v : A) :
  i < size s -> k != i ->
  getitem (take i s ++ v :: drop i.+1 s) k = getitem s k.
Proof.
move=> lt_i /negPf ne_k; case: (ltnP k (size s)) => [lt_k|le_k].
  by rewrite !(getitem_nth v) ?size_upd // nth_upd // ne_k.
by rewrite !getitem_out ?size_upd.
Qed.

(** X5. __setCoefficients__ on a core object stores the coefficients in
    that object and changes nothing else: its other attributes, every
    other core object, every Parameter list and every Basis stay as they
    were. *)
Theorem setCoefficients_frame (h : heap) (self : ref) (obj : Poly) (c : matrix R) :
  getitem (polys h) self = Ok obj ->
  exists h' obj',
    [/\ __setCoefficients__ h self c = Ok h',
        getitem (polys h') self = Ok obj' /\ coefficients obj' = Some c,
        [/\ parameters obj' = parameters obj, basis obj' = basis obj,
            dimensions obj' = dimensions obj, orders obj' = orders obj &
            designMatrix obj' = designMatrix obj],
        forall r, r != self -> getitem (polys h') r = getitem (polys h) r &
        plists h' = plists h /\ bases h' = bases h].
Proof.
move=> Hself; have [lt_s _] := getitem_Ok obj Hself.
rewrite /__setCoefficients__ Hself bind_Ok (setitem_Ok _ lt_s) bind_Ok.
eexists; eexists; split; first by [].
- by split; [exact: getitem_upd_same | ].
- by [].
- by move=> r ne_r; apply: getitem_upd_other.
- by [].
Qed.


(* --------------------------------------------------------------------- *)
(* getStatistics                                                          *)
(* --------------------------------------------------------------------- *)

(** X7. getStatistics fails in three ways that the code shows: with an
    option string that names no rule, the None that getQuadratureRule
    returns cannot be unpacked (TypeError); with no option and exactly 8
    dimensions the AttributeError of getQuadratureRule comes through; and
    on a core object without coefficients it never returns a Statistics
    object. *)
Theorem getStatistics_errors (h : heap) (self : Poly) (g : rng) :
  [/\ forall s, str_lower s <> "qmc"%string -> str_lower s <> "tensor grid"%string ->
        getStatistics h self (Some s) g = Err TypeError,
      dimensions self = 8 -> getStatistics h self None g = Err AttributeError &
      coefficients self = None ->
        forall o, exists e, getStatistics h self o g = Err e].
Proof.
split.
- move=> s /String.eqb_neq ne_qmc /String.eqb_neq ne_tg.
  by rewrite /getStatistics /getQuadratureRule ne_qmc ne_tg.
- by move=> d8; rewrite /getStatistics /getQuadratureRule d8.
- move=> unset o; rewrite /getStatistics.
  case: (getQuadratureRule h self o g) => [[[[p w]|] g']|e]; last by exists e.
    rewrite bind_Ok /=.
    case: (scaleInputs h self p) => [xs|e]; last by exists e.
    rewrite bind_Ok; case: (getPolynomial h self xs) => [P|e]; last by exists e.
    by rewrite bind_Ok /get_coefficients unset; exists AttributeError.
  by exists TypeError.
Qed.

(* --------------------------------------------------------------------- *)
(* evaluatePolyFit on a fitted core object                                *)
(* --------------------------------------------------------------------- *)

Lemma sum_zip (m : nat) (a b : seq R) :
  size a = m -> size b = m ->
  (\sum_(x <- zip a b) x.1 * x.2 = \sum_(0 <= i < m) nth 0 a i * nth 0 b i)%R.
Proof.
move=> sza szb; rewrite (big_nth (0%R, 0%R)) size_zip sza szb minnn.
by apply: eq_big_nat => i /andP [_ lt_i]; rewrite nth_zip ?sza ?szb.
Qed.

Lemma ncols_shape (A : Type) (m n : nat) (M : matrix A) :
  has_shape m n M -> 0 < m -> ncols M = n.
Proof.
by case/andP=> /eqP <-; rewrite /ncols; case: M => [|r M] //= /andP [/eqP].
Qed.

Lemma transpose_shape (m n : nat) (P : matrix R) :
  has_shape m n P ->
  has_shape n m (transpose 0%R n P) /\
  forall j, j < n ->
    nth [::] (transpose 0%R n P) j = [seq entry 0%R P i j | i <- range m].
Proof.
case/has_shapeP=> szP Hrow.
have rowE (j : nat) : j < n ->
    nth [::] (transpose 0%R n P) j = [seq entry 0%R P i j | i <- range m].
  move=> lt_j; rewrite /transpose nth_map_range //.
  by rewrite (map_range [::] _ P) szP.
split=> //; apply: has_shape_nth; first by rewrite size_map size_iota.
by move=> j lt_j; rewrite rowE // size_map size_iota.
Qed.

Lemma scaleInputs_shape (h : heap) (self : Poly) (x : matrix R) (n : nat) :
  size (plists h (parameters self)) = dimensions self ->
  has_shape n (dimensions self) x ->
  exists2 xs, scaleInputs h self x = Ok xs & has_shape n (dimensions self) xs.
Proof.
move=> szp shx; have [xs eq_xs [shxs _]] := scale_loops_spec szp shx.
have szx : size x = n by case/andP: shx => /eqP.
by exists xs => //; rewrite /scaleInputs /nrows szx.
Qed.

(* getPolynomial on d >= 2 columns, as the assembly lemmas give it *)
Lemma getPolynomial_values (h : heap) (self : Poly) (X : matrix R) (n : nat) :
  let plist := plists h (parameters self) in
  let B := Basis.elements (bases h (basis self)) in
  let m := nrows B in
  let d := ncols B in
  1 < d -> has_shape m d B -> size plist = d -> has_shape n d X ->
  exists2 P, getPolynomial h self X = Ok P &
    has_shape m n P /\
    forall i j, i < m -> j < n ->
      entry 0%R P i j =
      (\prod_(0 <= k < d)
         orthoPoly_value (nth no_param plist k) (entry 0 B i k) (entry 0%R X j k))%R.
Proof.
move=> plist B m d d_gt1 shB szp shX.
have d_gt0 : 0 < d by exact: ltnW.
have m_gt0 : 0 < m by exact: ncols_gt0.
have szX : nrows X = n by case/andP: shX => /eqP.
rewrite /getPolynomial -/plist -/B -/d -/m szX.
have /negPf -> : d != 1 by rewrite neq_ltn d_gt1 orbT.
have [pdp -> [sz1 [_ Hpdp]]] := univariate_tables_spec szp shB shX m_gt0 0.
rewrite bind_Ok.
apply: (assemble_rows_spec
          (F := fun k g j => orthoPoly_value (nth no_param plist k) g (entry 0%R X j k))
          shB d_gt0) => k i lt_k lt_i.
have [mx Hmx [eq1 _]] := Hpdp k lt_k.
have lt_k1 : k < size pdp.1 by rewrite sz1.
rewrite addn0 in eq1.
exact: table_lookup lt_k1 (Hmx i lt_i) eq1.
Qed.

(** X8. On a fitted core object with d >= 2 dimensions, m basis terms and
    an m x 1 coefficient array, evaluatePolyFit scales the n x d query
    points and returns an n x 1 array: the value at point j is the sum over
    the basis terms i of the coefficient of i times the product over the
    dimensions k of the univariate value of degree basis[i,k] at the
    scaled coordinate k of point j. *)
Theorem evaluatePolyFit_weighted_sum (h : heap) (self : Poly) (x c : matrix R) (n : nat) :
  let plist := plists h (parameters self) in
  let B := Basis.elements (bases h (basis self)) in
  let m := nrows B in
  let d := ncols B in
  coefficients self = Some c -> has_shape m 1 c ->
  dimensions self = d -> 1 < d -> has_shape m d B -> size plist = d ->
  has_shape n d x ->
  exists xs Y,
    [/\ scaleInputs h self x = Ok xs, has_shape n d xs,
        evaluatePolyFit h self x = Ok Y, has_shape n 1 Y &
        forall j, j < n ->
          entry 0%R Y j 0 =
          (\sum_(0 <= i < m)
             (\prod_(0 <= k < d)
                orthoPoly_value (nth no_param plist k) (entry 0 B i k)
                                (entry 0%R xs j k)) * entry 0%R c i 0)%R].
Proof.
move=> plist B m d Hc shc dimE d_gt1 shB szp shx.
have m_gt0 : 0 < m by apply: ncols_gt0; exact: ltnW.
have [xs eq_xs shxs] : exists2 xs, scaleInputs h self x = Ok xs & has_shape n d xs.
  by rewrite -dimE; apply: scaleInputs_shape; rewrite dimE.
have [P eq_P [shP HP]] := getPolynomial_values d_gt1 shB szp shxs.
have [shT rowT] := transpose_shape shP.
have [szc rowc] := has_shapeP shc.
have [szT HrowT] := has_shapeP shT.
pose Y := [seq [:: (\sum_(x <- zip r [seq nth 0 b 0 | b <- c]) x.1 * x.2)%R]
          | r <- transpose 0%R n P].
exists xs, Y; split=> //.
- rewrite /evaluatePolyFit eq_xs bind_Ok eq_P bind_Ok /get_coefficients Hc bind_Ok.
  rewrite (ncols_shape shP m_gt0) /matmul (ncols_shape shc m_gt0).
  have -> : all (fun r => size r == size c) (transpose 0%R n P).
    by rewrite szc; case/andP: shT.
  by [].
- apply: has_shape_nth; first by rewrite size_map.
  by move=> j lt_j; rewrite (nth_map [::]) ?szT.
- move=> j lt_j; rewrite /entry (nth_map [::]) ?szT //=.
  rewrite (@sum_zip m) ?HrowT ?size_map //.
  apply: eq_big_nat => i /andP [_ lt_i].
  rewrite rowT // nth_map_range // HP // (nth_map [::]) ?szc //.
Qed.

(** X9. With coefficients whose row count differs from the number of
    basis terms, evaluatePolyFit on at least one query point raises
    ValueError: the matrix product does not conform. *)
Theorem evaluatePolyFit_shape_mismatch (h : heap) (self : Poly) (x c : matrix R) (n : nat) :
  let plist := plists h (parameters self) in
  let B := Basis.elements (bases h (basis self)) in
  let m := nrows B in
  let d := ncols B in
  coefficients self = Some c -> size c != m -> 0 < n ->
  dimensions self = d -> 1 < d -> has_shape m d B -> size plist = d ->
  has_shape n d x ->
  evaluatePolyFit h self x = Err ValueError.
Proof.
move=> plist B m d Hc ne_c n_gt0 dimE d_gt1 shB szp shx.
have m_gt0 : 0 < m by apply: ncols_gt0; exact: ltnW.
have [xs eq_xs shxs] : exists2 xs, scaleInputs h self x = Ok xs & has_shape n d xs.
  by rewrite -dimE; apply: scaleInputs_shape; rewrite dimE.
have [P eq_P [shP HP]] := getPolynomial_values d_gt1 shB szp shxs.
have [shT rowT] := transpose_shape shP.
have [szT HrowT] := has_shapeP shT.
rewrite /evaluatePolyFit eq_xs bind_Ok eq_P bind_Ok /get_coefficients Hc bind_Ok.
rewrite (ncols_shape shP m_gt0) /matmul.
have /negPf -> // : ~~ all (fun r => size r == size c) (transpose 0%R n P).
apply/allPn; exists (nth [::] (transpose 0%R n P) 0); first by rewrite mem_nth ?szT.
by rewrite HrowT // eq_sym.
Qed.

(* --------------------------------------------------------------------- *)
(* The tensor grid: weights and points row by row                         *)
(* --------------------------------------------------------------------- *)

Lemma sum_nat_pairs (T N : nat) (G : nat -> R) :
  (\sum_(0 <= r < T * N) G r =
   \sum_(0 <= a < T) \sum_(0 <= b < N) G (a * N + b))%R.
Proof.
elim: T => [|T IH]; first by rewrite mul0n !big_geq.
rewrite big_nat_recr //= -IH mulSn addnC.
rewrite (@big_cat_nat _ _ _ (T * N)) ?leq_addr //=; congr (_ + _)%R.
rewrite -{1}[T * N]add0n big_addn addKn.
by apply: eq_big_nat => b _; rewrite addnC.
Qed.

Section TensorAligned.

Variables (plist : seq Param) (orders : seq nat) (d : nat).

Notation rule := (local_rule plist orders).
Notation points_after := (tensor_points plist orders).
Notation weights_after := (tensor_weights plist orders).
Notation count := (fun l => size (rule l).1).

Hypothesis rule_sizes : forall u, u < d -> size (rule u).1 = size (rule u).2.

Lemma size_tensor_both (u : nat) :
  u <= d -> size (weights_after u) = size (points_after u).
Proof.
move=> le_u; rewrite size_tensor_weights size_tensor_points.
apply: eq_big_nat => k /andP [_ lt_k].
by rewrite rule_sizes // (leq_trans lt_k).
Qed.

Lemma tensor_weights_row (u r : nat) :
  u < d -> r < size (weights_after u.+1) ->
  nth 0%R (weights_after u.+1) r =
  (nth 0%R (weights_after u) (r %/ count u) * nth 0%R (rule u).2 (r %% count u))%R.
Proof.
move=> lt_u; rewrite tensor_weights_S /kron1 size_allpairs rule_sizes // => lt_r.
have N_gt0 : 0 < size (rule u).2.
  by case: (size (rule u).2) lt_r => //; rewrite muln0.
rewrite {1}(divn_eq r (size (rule u).2)) (nth_of_allpairs 0%R 0%R) //.
  by rewrite ltn_divLR.
by rewrite ltn_pmod.
Qed.

Lemma tensor_digit_S (u k r : nat) :
  k < u -> tensor_digit count u.+1 k r = tensor_digit count u k (r %/ count u).
Proof.
by move=> lt_k; rewrite /tensor_digit big_nat_recr //= mulnC divnMA.
Qed.

Lemma tensor_digit_last (u r : nat) : tensor_digit count u.+1 u r = r %% count u.
Proof. by rewrite /tensor_digit big_geq // divn1. Qed.

Lemma tensor_weights_entry (u r : nat) :
  u <= d -> r < size (weights_after u) ->
  nth 0%R (weights_after u) r =
  (\prod_(0 <= k < u) nth 0%R (rule k).2 (tensor_digit count u k r))%R.
Proof.
elim: u r => [|u IH] r le_u lt_r.
  by rewrite big_geq //; case: r lt_r.
have lt_q : r %/ count u < size (weights_after u).
  move: lt_r; rewrite tensor_weights_S size_allpairs -rule_sizes //.
  by case: (count u) => [|N]; rewrite ?muln0 // ltn_divLR.
rewrite tensor_weights_row // IH ?(ltnW le_u) // big_nat_recr //=.
rewrite tensor_digit_last; congr (_ * _)%R.
by apply: eq_big_nat => k /andP [_ lt_k]; rewrite tensor_digit_S.
Qed.

(* the rule applied to an integrand that is a product over the columns *)
Lemma tensor_sum_product (f : nat -> R -> R) (u : nat) :
  u <= d ->
  (\sum_(0 <= r < size (weights_after u))
     nth 0%R (weights_after u) r *
     \prod_(0 <= k < u) f k (nth 0%R (nth [::] (points_after u) r) k.+1)
   = \prod_(0 <= k < u)
       \sum_(0 <= j < count k) nth 0%R (rule k).2 j * f k (nth 0%R (rule k).1 j))%R.
Proof.
elim: u => [|u IH] le_u.
  by rewrite !(big_geq (leqnn 0)) /= big_nat1 big_geq // mulr1.
have lt_u : u < d by [].
have eqN := rule_sizes lt_u.
have szW := size_tensor_both (ltnW le_u).
rewrite [RHS]big_nat_recr //= -IH ?(ltnW le_u) //.
rewrite tensor_weights_S /kron1 size_allpairs sum_nat_pairs mulr_suml.
apply: eq_big_nat => a /andP [_ lt_a].
rewrite mulr_sumr eqN; apply: eq_big_nat => b /andP [_ lt_b].
have lt_a' : a < size (points_after u) by rewrite -szW.
have lt_b' : b < size (rule u).1 by rewrite eqN.
rewrite (nth_of_allpairs 0%R 0%R) // -eqN tensor_points_step // big_nat_recr //=.
rewrite nth_rcons tensor_points_width // ltnn eqxx mulrACA; congr (_ * _ * _)%R.
apply: eq_big_nat => k /andP [_ lt_k].
by rewrite nth_rcons tensor_points_width // ltnS lt_k.
Qed.

End TensorAligned.

(** X10. In the tensor grid that getTensorQuadratureRule returns, weight r
    belongs to point r: with the row number r written in digits, one digit
    per dimension (the last dimension the fastest), the weight is the
    product of the 1-D weights at these digits and coordinate k of the
    point is the 1-D point of rule k at digit k. *)
Theorem getTensorQuadratureRule_rows (h : heap) (self : Poly)
    (orders_arg : option (seq nat)) :
  let plist := plists h (parameters self) in
  let d := dimensions self in
  let os := if orders_arg is Some o then o else orders self in
  let rule := local_rule plist os in
  let digit := tensor_digit (fun l => size (rule l).1) d in
  0 < d -> size plist = d -> size os = d ->
  (forall u, u < d -> size (rule u).1 = size (rule u).2) ->
  exists points weights,
    getTensorQuadratureRule h self orders_arg = Ok (points, weights) /\
    forall r, r < size weights ->
      nth 0%R weights r = (\prod_(0 <= k < d) nth 0%R (rule k).2 (digit k r))%R /\
      forall k, k < d -> entry 0%R points r k = nth 0%R (rule k).1 (digit k r).
Proof.
move=> plist d os rule digit d_gt0 szp szo Hrule.
have eq_sz := size_tensor_both Hrule (leqnn d).
exists [seq drop 1 r | r <- tensor_points plist os d], (tensor_weights plist os d).
split.
  rewrite /getTensorQuadratureRule -/plist -/d -/os.
  by rewrite tensor_loop_total ?szp ?szo // bind_Ok -[d == 0]negbK -lt0n d_gt0.
move=> r lt_r; split; first exact: (tensor_weights_entry Hrule (leqnn d) lt_r).
move=> k lt_k; rewrite eq_sz in lt_r.
by rewrite /entry (nth_map [::]) // nth_drop add1n tensor_points_entry.
Qed.

(** X11. The tensor grid integrates a product exactly as the 1-D rules do:
    for an integrand that is a product of one factor per coordinate, the
    weighted sum over the grid that getTensorQuadratureRule returns is the
    product over the dimensions of the weighted sums over the 1-D rules. *)
Theorem getTensorQuadratureRule_product (h : heap) (self : Poly)
    (orders_arg : option (seq nat)) (f : nat -> R -> R) :
  let plist := plists h (parameters self) in
  let d := dimensions self in
  let os := if orders_arg is Some o then o else orders self in
  let rule := local_rule plist os in
  0 < d -> size plist = d -> size os = d ->
  (forall u, u < d -> size (rule u).1 = size (rule u).2) ->
  exists points weights,
    getTensorQuadratureRule h self orders_arg = Ok (points, weights) /\
    (\sum_(0 <= r < size weights)
       nth 0%R weights r * \prod_(0 <= k < d) f k (entry 0%R points r k)
     = \prod_(0 <= k < d)
         \sum_(0 <= j < size (rule k).1)
           nth 0%R (rule k).2 j * f k (nth 0%R (rule k).1 j))%R.
Proof.
move=> plist d os rule d_gt0 szp szo Hrule.
have eq_sz := size_tensor_both Hrule (leqnn d).
exists [seq drop 1 r | r <- tensor_points plist os d], (tensor_weights plist os d).
split.
  rewrite /getTensorQuadratureRule -/plist -/d -/os.
  by rewrite tensor_loop_total ?szp ?szo // bind_Ok -[d == 0]negbK -lt0n d_gt0.
rewrite -(tensor_sum_product Hrule f (leqnn d)).
apply: eq_big_nat => r /andP [_ lt_r]; congr (_ * _)%R.
apply: eq_big_nat => k _; rewrite eq_sz in lt_r.
by rewrite /entry (nth_map [::]) // nth_drop add1n.
Qed.

(* --------------------------------------------------------------------- *)
(* Where the loops of getTensorQuadratureRule stop                        *)
(* --------------------------------------------------------------------- *)

Lemma foldM_cat (A B : Type) (f : B -> A -> res B) (b : B) (s t : seq A) :
  foldM f b (s ++ t) = (b' <- foldM f b s ;; foldM f b' t).
Proof.
elim: s b => [|x s IH] b /=; first by [].
by case: (f b x) => //= b'; rewrite IH.
Qed.

(** X12. getTensorQuadratureRule raises TypeError on a core object of no
    dimension (pp is still the list [1.0] when it is sliced), and
    IndexError when the list of orders is shorter than the number of
    dimensions. *)
Theorem getTensorQuadratureRule_errors (h : heap) (self : Poly)
    (orders_arg : option (seq nat)) :
  let plist := plists h (parameters self) in
  let d := dimensions self in
  let os := if orders_arg is Some o then o else orders self in
  (d = 0 -> getTensorQuadratureRule h self orders_arg = Err TypeError) /\
  (size os < d -> d <= size plist ->
   getTensorQuadratureRule h self orders_arg = Err IndexError).
Proof.
move=> plist d os; rewrite /getTensorQuadratureRule -/plist -/d -/os; split.
  by move=> ->.
move=> lt_o le_p.
have -> : tensor_loop plist os d = Err IndexError; last by [].
rewrite /tensor_loop /range -(subnKC (ltnW lt_o)) iotaD add0n foldM_cat.
rewrite -/(range (size os)) -/(tensor_loop plist os (size os)).
rewrite tensor_loop_total ?leqnn ?(leq_trans (ltnW lt_o)) // bind_Ok.
have -> : d - size os = (d - (size os).+1).+1 by rewrite subnSK.
rewrite [iota _ _.+1]/= foldM_cons /tensor_step.
rewrite (getitem_nth no_param) ?(leq_trans lt_o) // bind_Ok.
by rewrite getitem_out.
Qed.

(* --------------------------------------------------------------------- *)
(* evaluatePolyGradFit on a fitted core object                            *)
(* --------------------------------------------------------------------- *)

Lemma transpose_column (m : nat) (c : matrix R) :
  has_shape m 1 c -> transpose 0%R 1 c = [:: [seq nth 0%R r 0 | r <- c]].
Proof. by []. Qed.

(** X13. On a fitted univariate core object (d = 1) whose coefficient
    array has m x 1 entries with m different from 1, evaluatePolyGradFit
    raises ValueError: the shortcut of getPolynomialGradient hands it the
    table of values, of which it multiplies one row of n entries by the
    1 x m coefficients. *)
Theorem evaluatePolyGradFit_univariate (h : heap) (self : Poly) (x c : matrix R)
    (m n : nat) :
  let plist := plists h (parameters self) in
  let B := Basis.elements (bases h (basis self)) in
  ncols B = 1 -> dimensions self = 1 -> size plist = 1 ->
  coefficients self = Some c -> has_shape m 1 c -> 1 < m ->
  has_shape n 1 x ->
  evaluatePolyGradFit h self x = Err ValueError.
Proof.
move=> plist B d1 dimE szp Hc shc m_gt1 shx.
have [xs eq_xs shxs] : exists2 xs, scaleInputs h self x = Ok xs & has_shape n 1 xs.
  by rewrite -dimE; apply: scaleInputs_shape; rewrite dimE.
rewrite /evaluatePolyGradFit eq_xs bind_Ok.
rewrite /getPolynomialGradient -/plist -/B d1 eqxx.
rewrite (getitem_nth no_param) ?szp // !bind_Ok dimE.
rewrite /range [iota 0 1]/= foldM_cons /get_coefficients Hc bind_Ok.
rewrite /gradient_item /_getOrthoPoly [fst _]/=.
rewrite [getitem _ 0]/getitem drop0 !bind_Ok.
have m_gt0 : 0 < m by exact: ltnW.
rewrite (ncols_shape shc m_gt0) (transpose_column shc) /matmul.
have [szc _] := has_shapeP shc.
by rewrite [all _ _]/= size_map szc andbT (gtn_eqF m_gt1).
Qed.

(* getPolynomialGradient on d >= 2 columns, as the assembly lemmas give
   it *)
Lemma getPolynomialGradient_values (h : heap) (self : Poly) (X : matrix R) (n : nat) :
  let plist := plists h (parameters self) in
  let B := Basis.elements (bases h (basis self)) in
  let m := nrows B in
  let d := ncols B in
  1 < d -> has_shape m d B -> size plist = d -> has_shape n d X ->
  exists2 Rs, getPolynomialGradient h self X = Ok (Directions Rs) &
    size Rs = d /\
    forall v, v < d ->
      has_shape m n (nth [::] Rs v) /\
      forall i j, i < m -> j < n ->
        entry 0%R (nth [::] Rs v) i j =
        (\prod_(0 <= k < d)
           if k == v
           then orthoPoly_derivative (nth no_param plist k) (entry 0 B i k) (entry 0%R X j k)
           else orthoPoly_value (nth no_param plist k) (entry 0 B i k) (entry 0%R X j k))%R.
Proof.
move=> plist B m d d_gt1 shB szp shX.
have d_gt0 : 0 < d by exact: ltnW.
have m_gt0 : 0 < m by exact: ncols_gt0.
have szX : nrows X = n by case/andP: shX => /eqP.
rewrite /getPolynomialGradient -/plist -/B -/d -/m szX.
have /negPf -> : d != 1 by rewrite neq_ltn d_gt1 orbT.
have [pdp -> [sz1 [sz2 Hpdp]]] := univariate_tables_spec szp shB shX m_gt0 1.
rewrite bind_Ok.
pose G (v k g j : nat) : R :=
  if k == v then orthoPoly_derivative (nth no_param plist k) g (entry 0%R X j k)
  else orthoPoly_value (nth no_param plist k) g (entry 0%R X j k).
pose I (v : nat) (Rs : seq (matrix R)) :=
  size Rs = v /\
  forall v', v' < v ->
    has_shape m n (nth [::] Rs v') /\
    forall i j, i < m -> j < n ->
      entry 0%R (nth [::] Rs v') i j = (\prod_(0 <= k < d) G v' k (entry 0 B i k) j)%R.
have I0 : I 0 [::] by [].
have step (v : nat) (Rs : seq (matrix R)) : v < d -> I v Rs ->
    exists2 Rs',
      (polynomialgradient <-
         assemble_rows (fun k => if k == v then getitem pdp.2 k else getitem pdp.1 k)
                       B m d n ;;
       Ok (rcons Rs polynomialgradient)) = Ok Rs' & I v.+1 Rs'.
  move=> lt_v [szRs HRs].
  have tr (k i : nat) : k < d -> i < m ->
      exists2 T, (if k == v then getitem pdp.2 k else getitem pdp.1 k) = Ok T &
        getitem T (entry 0 B i k) = Ok [seq G v k (entry 0 B i k) j | j <- range n].
    move=> lt_k lt_i; have [mx Hmx [eq1 eq2]] := Hpdp k lt_k.
    have le_b : entry 0 B i k <= mx + 1 by rewrite (leq_trans (Hmx i lt_i)) ?leq_addr.
    have lt_k1 : k < size pdp.1 by rewrite sz1.
    have lt_k2 : k < size pdp.2 by rewrite sz2.
    rewrite /G; case: (k == v).
      exact: table_lookup lt_k2 le_b eq2.
    exact: table_lookup lt_k1 le_b eq1.
  have [P -> [shP HP]] := assemble_rows_spec shB d_gt0 tr.
  rewrite bind_Ok; eexists; first by [].
  split; first by rewrite size_rcons szRs.
  move=> v'; rewrite ltnS leq_eqVlt nth_rcons szRs.
  case: (v' =P v) => [->|_] /=; first by rewrite ltnn.
  by move=> lt_v'; rewrite lt_v'; apply: HRs.
have [Rs -> [szRs HRs]] := foldM_range I0 step.
by rewrite bind_Ok; exists Rs.
Qed.

(** X14. On a fitted core object with d >= 2 dimensions, m basis terms and
    an m x 1 coefficient array, evaluatePolyGradFit scales the n x d query
    points and returns a d x n array: the entry of direction v at point j
    is the sum over the basis terms i of the coefficient of i times the
    product over the dimensions k of the univariate value of degree
    basis[i,k] at the scaled coordinate k of point j, with the univariate
    derivative in its place for k = v.  The derivative is the one with
    respect to the scaled coordinate: no factor of the scaling enters. *)
Theorem evaluatePolyGradFit_weighted_sum (h : heap) (self : Poly) (x c : matrix R)
    (n : nat) :
  let plist := plists h (parameters self) in
  let B := Basis.elements (bases h (basis self)) in
  let m := nrows B in
  let d := ncols B in
  coefficients self = Some c -> has_shape m 1 c ->
  dimensions self = d -> 1 < d -> has_shape m d B -> size plist = d ->
  has_shape n d x ->
  exists xs G,
    [/\ scaleInputs h self x = Ok xs, has_shape n d xs,
        evaluatePolyGradFit h self x = Ok G, has_shape d n G &
        forall v j, v < d -> j < n ->
          entry 0%R G v j =
          (\sum_(0 <= i < m)
             entry 0%R c i 0 *
             \prod_(0 <= k < d)
               if k == v
               then orthoPoly_derivative (nth no_param plist k) (entry 0 B i k)
                                         (entry 0%R xs j k)
               else orthoPoly_value (nth no_param plist k) (entry 0 B i k)
                                    (entry 0%R xs j k))%R].
Proof.
move=> plist B m d Hc shc dimE d_gt1 shB szp shx.
have m_gt0 : 0 < m by apply: ncols_gt0; exact: ltnW.
have [xs eq_xs shxs] : exists2 xs, scaleInputs h self x = Ok xs & has_shape n d xs.
  by rewrite -dimE; apply: scaleInputs_shape; rewrite dimE.
have [Rs eq_Rs [szRs HRs]] := getPolynomialGradient_values d_gt1 shB szp shxs.
have [szc rowc] := has_shapeP shc.
have szx : size x = n by case/andP: shx => /eqP.
pose col := [seq nth 0%R r 0 | r <- c].
pose row (v : nat) :=
  [seq (\sum_(y <- zip col [seq nth 0%R b j | b <- nth [::] Rs v]) y.1 * y.2)%R
  | j <- range n].
pose I (i : nat) (G : matrix R) :=
  [/\ size G = d, forall v, v < d -> size (nth [::] G v) = n &
      forall v, v < i -> nth [::] G v = row v].
have I0 : I 0 (zeros d n).
  split=> //; first by rewrite size_nseq.
  by move=> v lt_v; rewrite nth_nseq lt_v size_nseq.
have step (i : nat) (G : matrix R) : i < d -> I i G ->
    exists2 G',
      (c0 <- get_coefficients self ;;
       Hi <- gradient_item (Directions Rs) i ;;
       prod <- matmul (transpose 0%R (ncols c0) c0) Hi ;;
       match prod with
       | [:: row] => if size row == n then setitem G i row else Err ValueError
       | _ => Err ValueError
       end) = Ok G' & I i.+1 G'.
  move=> lt_i [szG HszG HG].
  have [shRi _] := HRs i lt_i.
  have [szRi _] := has_shapeP shRi.
  rewrite /get_coefficients Hc bind_Ok /gradient_item (getitem_nth [::]) ?szRs //.
  rewrite bind_Ok (ncols_shape shc m_gt0) (transpose_column shc) /matmul.
  rewrite [all _ _]/= size_map szc szRi eqxx [andb _ _]/= bind_Ok.
  rewrite [map _ [:: _]]/= (ncols_shape shRi m_gt0).
  rewrite size_map size_iota eqxx setitem_Ok ?szG //.
  exists (take i G ++ row i :: drop i.+1 G); first by [].
  split.
  - by rewrite size_upd ?szG.
  - move=> v lt_v; rewrite nth_upd ?szG //; case: (v == i); last exact: HszG.
    by rewrite size_map size_iota.
  - move=> v; rewrite ltnS leq_eqVlt nth_upd ?szG //.
    by case: (v =P i) => [->|_] //=; apply: HG.
have [G eq_G [szG HszG HG]] := foldM_range I0 step.
exists xs, G; split=> //.
- by rewrite /evaluatePolyGradFit eq_xs bind_Ok eq_Rs bind_Ok dimE szx.
- exact: has_shape_nth.
- move=> v j lt_v lt_j; rewrite /entry HG // /row nth_map_range //.
  have [shRv HRv] := HRs v lt_v.
  have [szRv _] := has_shapeP shRv.
  rewrite (@sum_zip m) ?size_map //.
  apply: eq_big_nat => i /andP [_ lt_i].
  rewrite /col (nth_map [::]) ?szc // (nth_map [::]) ?szRv //.
  by rewrite -/(entry 0%R (nth [::] Rs v) i j) HRv.
Qed.

(* --------------------------------------------------------------------- *)
(* Core objects that share a Basis; the two setters together              *)
(* --------------------------------------------------------------------- *)


Lemma upd_upd (A : Type) (s : seq A) (i : nat) (v w : A) :
  i < size s ->
  let s' := take i s ++ v :: drop i.+1 s in
  take i s' ++ w :: drop i.+1 s' = take i s ++ w :: drop i.+1 s.
Proof.
move=> lt_i /=; have szt : size (take i s) = i by rewrite size_takel // ltnW.
rewrite -{1}szt take_size_cat //; congr (_ ++ _ :: _).
by rewrite -cat_rcons -{1}szt -(size_rcons _ v) drop_size_cat.
Qed.

(** X16. The two setters do not disturb each other: on a core object of the
    heap, __setCoefficients__ followed by __setDesignMatrix__ and the two
    calls in the other order end in the same heap, in which the object
    holds both the coefficients and the design matrix and its other
    attributes are as they were. *)
Theorem setters_commute (h : heap) (self : ref) (obj : Poly) (c m : matrix R) :
  getitem (polys h) self = Ok obj ->
  exists h1 h2 h12,
    [/\ __setCoefficients__ h self c = Ok h1 /\ __setDesignMatrix__ h1 self m = Ok h12,
        __setDesignMatrix__ h self m = Ok h2 /\ __setCoefficients__ h2 self c = Ok h12 &
        getitem (polys h12) self =
        Ok {| parameters := parameters obj; basis := basis obj;
              dimensions := dimensions obj; orders := orders obj;
              coefficients := Some c; designMatrix := Some m |}].
Proof.
move=> Hself; have [lt_s _] := getitem_Ok obj Hself.
pose put (o : Poly) : heap :=
  {| plists := plists h; bases := bases h;
     polys := take self (polys h) ++ o :: drop self.+1 (polys h) |}.
pose set_c (o : Poly) : Poly :=
  {| parameters := parameters o; basis := basis o; dimensions := dimensions o;
     orders := orders o; coefficients := Some c; designMatrix := designMatrix o |}.
pose set_m (o : Poly) : Poly :=
  {| parameters := parameters o; basis := basis o; dimensions := dimensions o;
     orders := orders o; coefficients := coefficients o; designMatrix := Some m |}.
have again (o o' : Poly) : polys (put o) = take self (polys h) ++ o :: drop self.+1 (polys h) ->
    setitem (polys (put o)) self o' = Ok (polys (put o')).
  by move=> ->; rewrite setitem_Ok ?size_upd // upd_upd.
exists (put (set_c obj)), (put (set_m obj)), (put (set_c (set_m obj))); split.
- split.
    by rewrite /__setCoefficients__ Hself bind_Ok (setitem_Ok _ lt_s) bind_Ok.
  rewrite /__setDesignMatrix__ [polys (put _)]/= getitem_upd_same // bind_Ok.
  by rewrite -/(set_m (set_c obj)) -[take _ _ ++ _]/(polys (put (set_c obj))) (again _ _ (erefl _)).
- split.
    by rewrite /__setDesignMatrix__ Hself bind_Ok (setitem_Ok _ lt_s) bind_Ok.
  rewrite /__setCoefficients__ [polys (put _)]/= getitem_upd_same // bind_Ok.
  by rewrite -/(set_c (set_m obj)) -[take _ _ ++ _]/(polys (put (set_m obj))) (again _ _ (erefl _)).
- by rewrite [polys _]/= getitem_upd_same.
Qed.

End MoreProperties.

(* --------------------------------------------------------------------- *)
(* The further properties at the concrete core objects                    *)
(* --------------------------------------------------------------------- *)

Lemma example_grid_sizes (u : nat) :
  u < 2 ->
  size (_getLocalQuadrature
          (nth (no_param rat nat) [:: Example.uniform2; Example.uniform2] u)
          (2 * nth 0 [:: 2; 2] u + 1)).1 =
  size (_getLocalQuadrature
          (nth (no_param rat nat) [:: Example.uniform2; Example.uniform2] u)
          (2 * nth 0 [:: 2; 2] u + 1)).2.
Proof. by case: u => [|[|u]]. Qed.

Lemma getQuadratureRule_tensor_grid_witness :
  exists points weights,
    getQuadratureRule Example.heap1 Example.poly0 (Some "Tensor Grid"%string) 0 =
    Ok (Some (points, weights), 0) /\ size weights = 25.
Proof.
have [| | | | |points [weights [eq_r szw _]]] :=
  @getQuadratureRule_tensor_grid _ _ Example.heap1 Example.poly0 "Tensor Grid"%string 0.
- reflexivity.
- reflexivity.
- reflexivity.
- reflexivity.
- exact: example_grid_sizes.
- exists points, weights; split; first exact: eq_r.
  by rewrite szw /= unlock.
Defined.

Lemma scaleInputs_unscaled_witness :
  scaleInputs Example.heap3 Example.poly0 [:: [:: 2%R; 3%R]] = Ok [:: [:: 2%R; 3%R]].
Proof.
apply: scaleInputs_unscaled.
- reflexivity.
- reflexivity.
Defined.

Lemma getPolynomial_univariate_witness :
  exists mx P,
    getPolynomial Example.heap2 Example.poly1 [:: [:: 0%R]; [:: 1%R]] = Ok P /\
    has_shape mx.+1 2 P.
Proof.
have [| | | |mx [P [eq_P _ shP _]]] :=
  @getPolynomial_univariate _ _ Example.heap2 Example.poly1 [:: [:: 0%R]; [:: 1%R]] 2.
- reflexivity.
- reflexivity.
- reflexivity.
- reflexivity.
- by exists mx, P; split; [exact: eq_P | exact: shP].
Defined.

Lemma setCoefficients_frame_witness :
  exists h',
    __setCoefficients__ Example.heap1 0 [:: [:: 1%R]] = Ok h' /\
    bases h' = bases Example.heap1.
Proof.
have [|h' [obj' [eq_h _ _ _ [_ eq_b]]]] :=
  @setCoefficients_frame _ _ Example.heap1 0 Example.poly0 [:: [:: 1%R]].
- reflexivity.
- by exists h'; split; [exact: eq_h | exact: eq_b].
Defined.


Lemma evaluatePolyFit_weighted_sum_witness :
  exists Y,
    evaluatePolyFit Example.heap1 Example.fitted0 [:: [:: 0%R; 0%R]] = Ok Y /\
    has_shape 1 1 Y.
Proof.
have [| | | | | | |xs [Y [_ _ eq_Y shY _]]] :=
  @evaluatePolyFit_weighted_sum _ _ Example.heap1 Example.fitted0 [:: [:: 0%R; 0%R]]
    [:: [:: 1%R]; [:: 0%R]; [:: 0%R]; [:: 0%R]; [:: 0%R]; [:: 0%R]] 1.
- reflexivity.
- reflexivity.
- reflexivity.
- reflexivity.
- reflexivity.
- reflexivity.
- reflexivity.
- by exists Y; split; [exact: eq_Y | exact: shY].
Defined.

Lemma evaluatePolyFit_shape_mismatch_witness :
  evaluatePolyFit Example.heap1 Example.misfitted0 [:: [:: 0%R; 0%R]] = Err ValueError.
Proof.
apply: (@evaluatePolyFit_shape_mismatch _ _ Example.heap1 Example.misfitted0
          [:: [:: 0%R; 0%R]] [:: [:: 1%R]] 1).
- reflexivity.
- reflexivity.
- reflexivity.
- reflexivity.
- reflexivity.
- reflexivity.
- reflexivity.
- reflexivity.
Defined.

Lemma getTensorQuadratureRule_rows_witness :
  exists points weights,
    getTensorQuadratureRule Example.heap1 Example.poly0 (Some [:: 1; 2]) =
    Ok (points, weights) /\
    forall r, r < size weights ->
      entry 0%R points r 1 =
      nth 0%R (local_rule [:: Example.uniform2; Example.uniform2] [:: 1; 2] 1).1
          (tensor_digit
             (fun l => size (local_rule [:: Example.uniform2; Example.uniform2]
                                        [:: 1; 2] l).1) 2 1 r).
Proof.
have [| | | |points [weights [eq_r Hrows]]] :=
  @getTensorQuadratureRule_rows _ _ Example.heap1 Example.poly0 (Some [:: 1; 2]).
- reflexivity.
- reflexivity.
- reflexivity.
- exact: example_rule_sizes.
- exists points, weights; split; first exact: eq_r.
  move=> r lt_r; have [_ Hpts] := Hrows r lt_r.
  exact: (Hpts 1 (erefl true)).
Defined.

Lemma getTensorQuadratureRule_product_witness :
  exists points weights,
    getTensorQuadratureRule Example.heap1 Example.poly0 (Some [:: 1; 2]) =
    Ok (points, weights) /\
    (\sum_(0 <= r < size weights)
       nth 0%R weights r * \prod_(0 <= k < 2) entry 0%R points r k
     = \prod_(0 <= k < 2)
         \sum_(0 <= j < size (local_rule [:: Example.uniform2; Example.uniform2]
                                         [:: 1; 2] k).1)
           nth 0%R (local_rule [:: Example.uniform2; Example.uniform2] [:: 1; 2] k).2 j *
           nth 0%R (local_rule [:: Example.uniform2; Example.uniform2] [:: 1; 2] k).1 j)%R.
Proof.
have [| | | |points [weights [eq_r Hsum]]] :=
  @getTensorQuadratureRule_product _ _ Example.heap1 Example.poly0 (Some [:: 1; 2])
    (fun _ x => x).
- reflexivity.
- reflexivity.
- reflexivity.
- exact: example_rule_sizes.
- by exists points, weights; split; [exact: eq_r | exact: Hsum].
Defined.

Lemma evaluatePolyGradFit_univariate_witness :
  evaluatePolyGradFit Example.heap2 Example.fitted1 [:: [:: 0%R]] = Err ValueError.
Proof.
apply: (@evaluatePolyGradFit_univariate _ _ Example.heap2 Example.fitted1
          [:: [:: 0%R]] [:: [:: 1%R]; [:: 0%R]; [:: 0%R]] 3 1).
- reflexivity.
- reflexivity.
- reflexivity.
- reflexivity.
- reflexivity.
- reflexivity.
- reflexivity.
Defined.

Lemma evaluatePolyGradFit_weighted_sum_witness :
  exists G,
    evaluatePolyGradFit Example.heap1 Example.fitted0 [:: [:: 0%R; 0%R]] = Ok G /\
    has_shape 2 1 G.
Proof.
have [| | | | | | |xs [G [_ _ eq_G shG _]]] :=
  @evaluatePolyGradFit_weighted_sum _ _ Example.heap1 Example.fitted0
    [:: [:: 0%R; 0%R]]
    [:: [:: 1%R]; [:: 0%R]; [:: 0%R]; [:: 0%R]; [:: 0%R]; [:: 0%R]] 1.
- reflexivity.
- reflexivity.
- reflexivity.
- reflexivity.
- reflexivity.
- reflexivity.
- reflexivity.
- by exists G; split; [exact: eq_G | exact: shG].
Defined.

Lemma setters_commute_witness :
  exists h12 : heap rat nat,
    getitem (polys h12) 0 =
    Ok (MkPoly 0 0 2 [:: 2; 2] (Some [:: [:: 1%R]]) (Some [:: [:: 2%R]])).
Proof.
have [|h1 [h2 [h12 [_ _ Hobj]]]] :=
  @setters_commute _ _ Example.heap1 0 Example.poly0 [:: [:: 1%R]] [:: [:: 2%R]].
- reflexivity.
- by exists h12; exact: Hobj.
Defined.
